(** * Anaphones: grouping a pronunciation dictionary into phonetic anagrams

    A shallow embedding of [anaphones.py].  Python strings are lists of code
    points, the insertion-ordered [dict] is an association list with
    in-place update, [set] is stdpp's [gset], and a function that can raise
    returns in an error monad over the Python exception classes it can
    meet. *)

From Stdlib Require Import NArith ZArith String Ascii.
From stdpp Require Import base option list sorting numbers countable gmap.

Set Warnings "-register-all".
Local Open Scope N_scope.

(** ** Strings *)

(** A [str] is its sequence of code points. *)
Abbreviation char := N (only parsing).
Abbreviation str := (list N) (only parsing).

(** Literals: the code points of an ASCII string. *)
Definition py (s : string) : str := N_of_ascii <$> list_ascii_of_string s.

(** [c in chars] for a one-character [c]. *)
Definition char_in (c : char) (chars : str) : bool := bool_decide (c ∈ chars).

(** [str.lstrip(chars)], [str.rstrip(chars)] and [str.strip(chars)]. *)
Fixpoint lstrip (chars : str) (s : str) : str :=
  match s with
  | [] => []
  | c :: rest => if char_in c chars then lstrip chars rest else s
  end.

Definition rstrip (chars : str) (s : str) : str :=
  reverse (lstrip chars (reverse s)).

Definition strip (chars : str) (s : str) : str :=
  rstrip chars (lstrip chars s).

(** [sep.join(parts)]. *)
Fixpoint join (sep : str) (parts : list str) : str :=
  match parts with
  | [] => []
  | [p] => p
  | p :: rest => p ++ sep ++ join sep rest
  end.

Definition cons_head (c : char) (parts : list str) : list str :=
  match parts with
  | [] => [[c]]
  | p :: rest => (c :: p) :: rest
  end.

(** [s.split(sep)] for a separator of two characters [a b]: the
    occurrences are found from the left and do not overlap. *)
Fixpoint split2 (a b : char) (s : str) : list str :=
  match s with
  | [] => [[]]
  | c :: rest =>
      match rest with
      | [] => [[c]]
      | c' :: rest' =>
          if bool_decide (c = a ∧ c' = b) then [] :: split2 a b rest'
          else cons_head c (split2 a b rest)
      end
  end.

(** [sorted(word)] joined back: code points in ascending order. *)
Definition sorted_str (word : str) : str := merge_sort N.le word.

(** ** Exceptions *)

Inductive exn := KeyError | ValueError | TypeError | AttributeError.

Inductive result (A : Type) :=
  | Ok (a : A)
  | Raise (e : exn).
Arguments Ok {A} a.
Arguments Raise {A} e.

#[global] Instance exn_eq_dec : EqDecision exn.
Proof. solve_decision. Defined.

#[global] Instance result_ret : MRet result := @Ok.
#[global] Instance result_bind : MBind result := λ A B f m,
  match m with
  | Ok a => f a
  | Raise e => Raise e
  end.

(** The error kinds of the design, read on the exception classes: a
    [KeyError] is a [LookupError]; a document of the wrong shape shows in
    [from_file] as the unpacking error ([ValueError], or [TypeError] for a
    value that cannot be iterated) or the attribute error that the mismatch
    triggers. *)
Definition is_LookupError (e : exn) : Prop := e = KeyError.

Definition is_FormatError (e : exn) : Prop :=
  e = ValueError ∨ e = TypeError ∨ e = AttributeError.

(** ** The insertion-ordered dictionary *)

Section odict.
Context {K V : Type} `{EqDecision K}.

(** [d[k]], [None] standing for [KeyError]. *)
Fixpoint dict_get (k : K) (d : list (K * V)) : option V :=
  match d with
  | [] => None
  | (k', v) :: rest => if decide (k' = k) then Some v else dict_get k rest
  end.

(** [d[k] = v]: a present key keeps its position, a new key goes last. *)
Fixpoint dict_set (k : K) (v : V) (d : list (K * V)) : list (K * V) :=
  match d with
  | [] => [(k, v)]
  | (k', v') :: rest =>
      if decide (k' = k) then (k', v) :: rest
      else (k', v') :: dict_set k v rest
  end.

(** [{k: v for k, v in items}]: later items overwrite earlier ones. *)
Definition dict_of_items (items : list (K * V)) : list (K * V) :=
  foldl (λ d kv, dict_set kv.1 kv.2 d) [] items.

Definition getitem (d : list (K * V)) (k : K) : result V :=
  match dict_get k d with
  | Some v => Ok v
  | None => Raise KeyError
  end.
End odict.

(** [d[k].append(w)] on a [defaultdict(list)]. *)
Fixpoint defaultdict_append {K T : Type} `{EqDecision K}
    (k : K) (w : T) (d : list (K * list T)) : list (K * list T) :=
  match d with
  | [] => [(k, [w])]
  | (k', l) :: rest =>
      if decide (k' = k) then (k', l ++ [w]) :: rest
      else (k', l) :: defaultdict_append k w rest
  end.

(** The [defaultdict] after a loop appended each of [items] under its
    key [f]. *)
Definition grouped {K T : Type} `{EqDecision K}
    (f : T → K) (items : list T) : list (K * list T) :=
  foldl (λ d w, defaultdict_append (f w) w d) [] items.

(** ** Value types *)

Record Spelling := mkSpelling { Spelling_s : str }.
Record Pronunciation := mkPronunciation { Pronunciation_s : str }.
Record PronouncedWord := mkPronouncedWord {
  spelling : Spelling;
  pronunciation : Pronunciation
}.

#[global] Instance Spelling_eq_dec : EqDecision Spelling.
Proof. solve_decision. Defined.
#[global] Instance Pronunciation_eq_dec : EqDecision Pronunciation.
Proof. solve_decision. Defined.
#[global] Instance PronouncedWord_eq_dec : EqDecision PronouncedWord.
Proof. solve_decision. Defined.
#[global] Instance Pronunciation_countable : Countable Pronunciation.
Proof.
  apply (inj_countable' Pronunciation_s mkPronunciation). by intros [].
Defined.

(** [isinstance(w, str)]: the string an item is, if it is one. *)
Class IsInstanceStr (T : Type) := isinstance_str : T → option str.
#[global] Instance str_isinstance : IsInstanceStr str := Some.
#[global] Instance PronouncedWord_isinstance : IsInstanceStr PronouncedWord :=
  λ _, None.

(** A dynamically typed item, for calls that mix strings and other values. *)
Inductive pyobj :=
  | PyStr (s : str)
  | PyInt (z : Z)
  | PyWord (w : PronouncedWord).
#[global] Instance pyobj_isinstance : IsInstanceStr pyobj := λ o,
  match o with
  | PyStr s => Some s
  | _ => None
  end.

(** ** The parsed input document *)

Inductive json :=
  | JNull
  | JBool (b : bool)
  | JInt (z : Z)
  | JFloat (bits : Z)
  | JStr (s : str)
  | JArr (items : list json)
  | JObj (items : list (str * json)).

(** [doc[language]]. *)
Definition json_subscript (doc : json) (language : str) : result json :=
  match doc with
  | JObj items => getitem items language
  | _ => Raise TypeError
  end.

(** [(d,) = value]: unpacking an iterable of exactly one element. *)
Definition unpack_single (value : json) : result json :=
  match value with
  | JArr [d] => Ok d
  | JArr _ => Raise ValueError
  | JStr [c] => Ok (JStr [c])
  | JStr _ => Raise ValueError
  | JObj [(k, _)] => Ok (JStr k)
  | JObj _ => Raise ValueError
  | _ => Raise TypeError
  end.

(** [d.items()]. *)
Definition json_items (d : json) : result (list (str * json)) :=
  match d with
  | JObj items => Ok items
  | _ => Raise AttributeError
  end.

(** [v.split(', ')]. *)
Definition json_split (v : json) : result (list str) :=
  match v with
  | JStr s => Ok (split2 44 32 s)
  | _ => Raise AttributeError
  end.

(** The code points alphabetic in Unicode below U+0300 (general
    categories Lu, Ll, Lt, Lm, Lo); a concrete reading of [str.isalpha] for
    inputs drawn from that range. *)
Definition isalpha_u02ff (c : char) : bool :=
  existsb (λ r : N * N, (r.1 <=? c) && (c <=? r.2))
    [(65, 90); (97, 122); (170, 170); (181, 181); (186, 186); (192, 214);
     (216, 246); (248, 705); (710, 721); (736, 740); (748, 748); (750, 750)].

(** ** Sample inputs *)

(** Two spellings whose transcriptions are anagrams, and a third that
    shares the transcription of the first. *)
Definition sample_word : PronouncedWord :=
  mkPronouncedWord (mkSpelling (py "cat")) (mkPronunciation (py "kat")).

Definition sample_data : list (Spelling * list Pronunciation) :=
  [(mkSpelling (py "cat"), [mkPronunciation (py "kat")]);
   (mkSpelling (py "act"), [mkPronunciation (py "akt")]);
   (mkSpelling (py "kat"), [mkPronunciation (py "kat")])].

(** A document in which the raw spellings [cat] and [c-at] normalize to
    the same [Spelling]. *)
Definition collision_before : list (str * str) := [(py "cat", py "/kat/")].
Definition collision_after : list (str * str) := [(py "act", py "/akt/")].
Definition collision_top : list (str * json) :=
  [(py "en_US",
    JArr [JObj (prod_map id JStr <$>
                  (collision_before ++ (py "c-at", py "/tak/")
                     :: collision_after))])].

(** A document with a spelling and a pronunciation that normalize to the
    empty string. *)
Definition empty_raw : list (str * str) :=
  [(py "-", py "/a/"); (py "b", py "/./"); (py "c", py "/-/, /b/")].
Definition empty_top : list (str * json) :=
  [(py "en_US", JArr [JObj (prod_map id JStr <$> empty_raw)])].

(** A document whose only spelling normalizes to the empty string. *)
Definition hyphen_doc : json :=
  JObj [(py "en_US", JArr [JObj [(py "-", JStr (py "/a/"))]])].

(** A document whose language entry is an object, not an array. *)
Definition bare_object_top : list (str * json) :=
  [(py "en_US", JObj [(py "race", JStr (py "/reis/"))])].

(** What [from_file] loads from [collision_top], the groups of the items
    [cat], [act], [dog], and the anagram of [sample_word] in
    [sample_data]. *)
Definition collision_data : list (Spelling * list Pronunciation) :=
  [(mkSpelling (py "cat"), [mkPronunciation (py "tak")]);
   (mkSpelling (py "act"), [mkPronunciation (py "akt")])].

Definition sample_groups : list (Pronunciation * list (list N)) :=
  [(mkPronunciation (py "act"), [py "cat"; py "act"]);
   (mkPronunciation (py "dgo"), [py "dog"])].

Definition sample_anagram : PronouncedWord :=
  mkPronouncedWord (mkSpelling (py "act")) (mkPronunciation (py "akt")).

Section Anaphones.

(** [c.isalpha()] on one code point: the Unicode table of the runtime. *)
Variable isalpha : char → bool.

(** [list(a_set)]: the iteration order of a set follows the hashes. *)
Variable list_of_set : gset Pronunciation → list Pronunciation.

(** *** Normalization *)

Definition excluded : str := [712; 716; 46; 45; 34; 39].

(** The condition of the generator in [clean_str_to_alphanum]. *)
Definition is_kept (c : char) : bool :=
  isalpha c && negb (char_in c excluded).

Definition clean_str_to_alphanum (word : str) : str :=
  filter (λ c, is_kept c) word.

Definition normalize_pronunciation (pronunciation : str) : str :=
  clean_str_to_alphanum (strip (py "/") pronunciation).

(** *** Constructors (the converters run on construction) *)

Definition new_Spelling (s : str) : Spelling :=
  mkSpelling (clean_str_to_alphanum s).

Definition new_Pronunciation (s : str) : Pronunciation :=
  mkPronunciation (normalize_pronunciation s).

Definition Spelling_sorted (self : Spelling) : Spelling :=
  new_Spelling (sorted_str (Spelling_s self)).

Definition Spelling_is_anagram_of (self other : Spelling) : bool :=
  bool_decide (Spelling_sorted self = Spelling_sorted other).

Definition Pronunciation_sorted (self : Pronunciation) : Pronunciation :=
  new_Pronunciation (sorted_str (Pronunciation_s self)).

Definition Pronunciation_is_anagram_of (self other : Pronunciation) : bool :=
  bool_decide (Pronunciation_sorted self = Pronunciation_sorted other).

Definition is_anagram_of (self other : PronouncedWord) : bool :=
  Spelling_is_anagram_of (spelling self) (spelling other).

Definition is_phonetic_anagram_of (self other : PronouncedWord) : bool :=
  Pronunciation_is_anagram_of (pronunciation self) (pronunciation other).

Definition json_safe_str (self : PronouncedWord) : str :=
  Spelling_s (spelling self) ++ py ":" ++ Pronunciation_s (pronunciation self).

(** The values the classes admit: a frozen instance only ever holds what
    its converter returned. *)
Definition Spelling_valid (x : Spelling) : Prop := ∃ s, x = new_Spelling s.

Definition Pronunciation_valid (x : Pronunciation) : Prop :=
  ∃ s, x = new_Pronunciation s.

Definition IPADict_valid (data : list (Spelling * list Pronunciation))
    : Prop :=
  Forall (λ e, Spelling_valid e.1 ∧ Forall Pronunciation_valid e.2) data.

(** *** deduplicate_pronunciations *)

Fixpoint deduplicate_loop (words : list PronouncedWord)
    (seen_pronunciations : gset Pronunciation)
    (unique : list PronouncedWord) : list PronouncedWord :=
  match words with
  | [] => unique
  | word :: rest =>
      if decide (pronunciation word ∈ seen_pronunciations)
      then deduplicate_loop rest seen_pronunciations unique
      else deduplicate_loop rest
             ({[pronunciation word]} ∪ seen_pronunciations)
             (unique ++ [word])
  end.

Definition deduplicate_pronunciations (words : list PronouncedWord)
    : list PronouncedWord :=
  deduplicate_loop words ∅ [].

(** The deduplication as the design words it: scanning in order, a word
    stays when no earlier word has its pronunciation. *)
Definition first_occurrences (words : list PronouncedWord)
    : list PronouncedWord :=
  omap (λ i,
      word ← words !! i;
      if decide (pronunciation word ∈ pronunciation <$> take i words)
      then None else Some word)
    (seq 0 (length words)).

(** *** IPADict *)

(** The [data] of an [IPADict]. *)
Abbreviation IPADict := (list (Spelling * list Pronunciation)) (only parsing).

(** The entries of the dict comprehension, in the order of [d.items()];
    the first value that is not a string raises. *)
Fixpoint from_file_entries (items : list (str * json))
    : result (list (Spelling * list Pronunciation)) :=
  match items with
  | [] => Ok []
  | (k, v) :: rest =>
      parts ← json_split v;
      let entry :=
        (new_Spelling k,
         list_of_set (list_to_set (new_Pronunciation <$> parts))) in
      entries ← from_file_entries rest;
      Ok (entry :: entries)
  end.

(** The entry the comprehension builds from a spelling and its string of
    pronunciation variants. *)
Definition from_file_entry (kv : str * str) : Spelling * list Pronunciation :=
  (new_Spelling kv.1,
   list_of_set (list_to_set (new_Pronunciation <$> split2 44 32 kv.2))).

(** [IPADict.from_file], on the document [json.load] returned. *)
Definition from_file (doc : json) (language : str) : result IPADict :=
  value ← json_subscript doc language;
  d ← unpack_single value;
  items ← json_items d;
  entries ← from_file_entries items;
  Ok (dict_of_items entries).

Definition flatten_to_pronounced_words (data : IPADict)
    : list PronouncedWord :=
  '(spelling, pronunciations) ← data;
  pronunciation ← pronunciations;
  [mkPronouncedWord spelling pronunciation].

(** *** find_anagrams *)

Section find_anagrams.
Context {T : Type} `{IsInstanceStr T}.

(** The string [s] the loop body computes for the item [w]. *)
Definition key_source (key : option (T → str)) (w : T) : result str :=
  match key with
  | Some key => Ok (key w)
  | None =>
      match isinstance_str w with
      | None => Raise TypeError
      | Some s => Ok s
      end
  end.

Fixpoint find_anagrams_loop (spellings : list T) (key : option (T → str))
    (d : list (str * list T)) : result (list (str * list T)) :=
  match spellings with
  | [] => Ok d
  | w :: rest =>
      s ← key_source key w;
      find_anagrams_loop rest key (defaultdict_append (sorted_str s) w d)
  end.

(** The group key of an item whose key string the loop could compute. *)
Definition sorted_key (key : option (T → str)) (w : T) : str :=
  match key_source key w with
  | Ok s => sorted_str s
  | Raise _ => []
  end.

(** Wrapping as [Pronunciation] keeps the group keys of [spellings]
    apart. *)
Definition wrap_injective (key : option (T → str)) (spellings : list T)
    : Prop :=
  ∀ w1 w2, w1 ∈ spellings → w2 ∈ spellings →
    new_Pronunciation (sorted_key key w1) =
      new_Pronunciation (sorted_key key w2) →
    sorted_key key w1 = sorted_key key w2.

Definition find_anagrams (spellings : list T) (key : option (T → str))
    : result (list (Pronunciation * list T)) :=
  d ← find_anagrams_loop spellings key [];
  Ok (dict_of_items
        ((λ '(letters, word_list), (new_Pronunciation letters, word_list))
           <$> d)).
End find_anagrams.

(** *** PhoneticAnagramDict *)

Abbreviation PhoneticAnagramDict :=
  (list (Pronunciation * list PronouncedWord)) (only parsing).

Definition get_pronunciation_str (x : PronouncedWord) : str :=
  Pronunciation_s (pronunciation x).

Definition from_IPADict (ipa_dict : IPADict) : result PhoneticAnagramDict :=
  find_anagrams (flatten_to_pronounced_words ipa_dict)
    (Some get_pronunciation_str).

(** The phonetic anagrams of [w] in a dictionary: its words, in flattening
    order, whose pronunciation has the letters of [w]'s. *)
Definition anagram_group (data : IPADict) (w : PronouncedWord)
    : list PronouncedWord :=
  filter (λ w', sorted_str (get_pronunciation_str w') =
                  sorted_str (get_pronunciation_str w))
    (flatten_to_pronounced_words data).

Definition PhoneticAnagramDict_getitem (self : PhoneticAnagramDict)
    (pronunciation : str + Pronunciation) : result (list PronouncedWord) :=
  match pronunciation with
  | inr pronunciation => getitem self (Pronunciation_sorted pronunciation)
  | inl pronunciation =>
      getitem self (Pronunciation_sorted (new_Pronunciation pronunciation))
  end.

(** *** main *)

Record reports := mkReports {
  anaphones : list (str * str);
  anaphones_unique_pronunciation : list (str * str);
  anaphones_nontrivial_unique_pronunciation : list (str * str)
}.

Definition joined (anas : list PronouncedWord) : str :=
  join (py ", ") (json_safe_str <$> anas).

(** One turn of the loop over the flattened words. *)
Definition main_step (phonetic_anagrams_dict : PhoneticAnagramDict)
    (r : reports) (pronounced_word : PronouncedWord) : result reports :=
  anas ← PhoneticAnagramDict_getitem phonetic_anagrams_dict
            (inr (pronunciation pronounced_word));
  let key_str := json_safe_str pronounced_word in
  let a := dict_set key_str (joined anas) (anaphones r) in
  let anas := deduplicate_pronunciations anas in
  let joined_anas := joined anas in
  let b := dict_set key_str joined_anas (anaphones_unique_pronunciation r) in
  let c := if bool_decide (1 < length anas)%nat
           then dict_set key_str joined_anas
                  (anaphones_nontrivial_unique_pronunciation r)
           else anaphones_nontrivial_unique_pronunciation r in
  Ok (mkReports a b c).

Fixpoint main_loop (phonetic_anagrams_dict : PhoneticAnagramDict)
    (words : list PronouncedWord) (r : reports) : result reports :=
  match words with
  | [] => Ok r
  | pronounced_word :: rest =>
      r' ← main_step phonetic_anagrams_dict r pronounced_word;
      main_loop phonetic_anagrams_dict rest r'
  end.

(** The three mappings [main] writes out, from a loaded dictionary. *)
Definition main_reports (spelling_to_pronunciations : IPADict)
    : result reports :=
  phonetic_anagrams_dict ← from_IPADict spelling_to_pronunciations;
  main_loop phonetic_anagrams_dict
    (flatten_to_pronounced_words spelling_to_pronunciations)
    (mkReports [] [] []).

(** The three mappings in closed form: one entry per flattened word, its
    value taken from the word's anagram group. *)
Definition report_entry (data : IPADict) (dedup : bool) (w : PronouncedWord)
    : str * str :=
  (json_safe_str w,
   joined (if dedup then deduplicate_pronunciations (anagram_group data w)
           else anagram_group data w)).

Definition nontrivial (data : IPADict) (w : PronouncedWord) : bool :=
  bool_decide
    (1 < length (deduplicate_pronunciations (anagram_group data w)))%nat.

Definition reports_of (data : IPADict) : reports :=
  let words := flatten_to_pronounced_words data in
  mkReports
    (dict_of_items (report_entry data false <$> words))
    (dict_of_items (report_entry data true <$> words))
    (dict_of_items (report_entry data true <$> filter (λ w, nontrivial data w) words)).

(** [main], on the document read from [ipa-dict-en_US.json]. *)
Definition main (doc : json) : result reports :=
  spelling_to_pronunciations ← from_file doc (py "en_US");
  main_reports spelling_to_pronunciations.


(** * Facts about the dictionary model *)

Section odict_facts.
Context {K V : Type} `{EqDecision K}.
Implicit Types (k : K) (v : V) (d items : list (K * V)).

Lemma dict_get_app k d1 d2 :
  dict_get k (d1 ++ d2) =
    match dict_get k d1 with Some v => Some v | None => dict_get k d2 end.
Proof.
  induction d1 as [|[k' v'] d1 IH]; simpl; [done|].
  by case_decide.
Qed.

Lemma dict_get_Some_elem k v d : dict_get k d = Some v → (k, v) ∈ d.
Proof.
  induction d as [|[k' v'] d IH]; simpl; [done|].
  case_decide; intros Hg.
  - simplify_eq. left.
  - right. by apply IH.
Qed.

Lemma dict_get_None k d : dict_get k d = None ↔ k ∉ d.*1.
Proof.
  induction d as [|[k' v'] d IH]; simpl.
  - split; [intros _; apply not_elem_of_nil | done].
  - rewrite not_elem_of_cons. case_decide; subst.
    + split; [done | by intros [? _]].
    + rewrite IH. split; [by intros ? | by intros [_ ?]].
Qed.

Lemma dict_get_is_Some k d : is_Some (dict_get k d) ↔ k ∈ d.*1.
Proof.
  rewrite <-not_eq_None_Some, dict_get_None.
  destruct (decide (k ∈ d.*1)); naive_solver.
Qed.

Lemma dict_get_NoDup k v d :
  NoDup d.*1 → (k, v) ∈ d → dict_get k d = Some v.
Proof.
  induction d as [|[k' v'] d IH]; simpl; intros Hnd Hin.
  - by apply elem_of_nil in Hin.
  - apply NoDup_cons in Hnd as [Hk' Hnd].
    apply elem_of_cons in Hin as [Heq | Hin].
    + simplify_eq. by rewrite decide_True.
    + rewrite decide_False; [by apply IH|].
      intros ->. apply Hk'. apply list_elem_of_fmap. by exists (k, v).
Qed.

Lemma dict_set_fresh k v d : k ∉ d.*1 → dict_set k v d = d ++ [(k, v)].
Proof.
  induction d as [|[k' v'] d IH]; simpl; [done|].
  rewrite not_elem_of_cons. intros [Hne Hk].
  rewrite decide_False by done. by rewrite IH.
Qed.

Lemma dict_set_keys k v d :
  (dict_set k v d).*1 = if decide (k ∈ d.*1) then d.*1 else d.*1 ++ [k].
Proof.
  induction d as [|[k' v'] d IH].
  - destruct (decide (k ∈ ([] : list (K * V)).*1)) as [Hin|Hin]; [|done].
    by apply elem_of_nil in Hin.
  - cbn [dict_set]. rewrite fmap_cons. cbn [fst].
    destruct (decide (k' = k)) as [->|Hne].
    + rewrite decide_True by left. done.
    + rewrite fmap_cons, IH. cbn [fst].
      destruct (decide (k ∈ d.*1)) as [Hin|Hin].
      * rewrite decide_True by (by right). done.
      * rewrite decide_False; [done|].
        rewrite not_elem_of_cons. naive_solver.
Qed.

Lemma dict_set_NoDup k v d : NoDup d.*1 → NoDup (dict_set k v d).*1.
Proof.
  intros Hnd. rewrite dict_set_keys. case_decide; [done|].
  apply NoDup_app. split_and!; [done | | apply NoDup_singleton].
  intros x Hx ->%list_elem_of_singleton. done.
Qed.

Lemma dict_get_set k k' v d :
  dict_get k' (dict_set k v d) =
    if decide (k = k') then Some v else dict_get k' d.
Proof.
  induction d as [|[k0 v0] d IH]; simpl.
  - done.
  - destruct (decide (k0 = k)) as [->|Hne]; simpl.
    + by destruct (decide (k = k')).
    + rewrite IH. destruct (decide (k0 = k')) as [->|?]; [|done].
      by rewrite decide_False.
Qed.

Lemma dict_fold_get k d0 items :
  dict_get k (foldl (λ d kv, dict_set kv.1 kv.2 d) d0 items) =
    match dict_get k (reverse items) with
    | Some v => Some v
    | None => dict_get k d0
    end.
Proof.
  revert d0. induction items as [|[k' v'] items IH]; intros d0; simpl.
  - done.
  - rewrite IH, reverse_cons, dict_get_app. simpl.
    destruct (dict_get k (reverse items)); [done|].
    rewrite dict_get_set. by destruct (decide (k' = k)).
Qed.

Lemma dict_fold_NoDup d0 items :
  NoDup d0.*1 → NoDup (foldl (λ d kv, dict_set kv.1 kv.2 d) d0 items).*1.
Proof.
  revert d0. induction items as [|[k' v'] items IH]; intros d0 Hnd; simpl.
  - done.
  - apply IH. by apply dict_set_NoDup.
Qed.

Lemma dict_fold_fresh d0 items :
  NoDup (d0.*1 ++ items.*1) →
  foldl (λ d kv, dict_set kv.1 kv.2 d) d0 items = d0 ++ items.
Proof.
  revert d0. induction items as [|[k' v'] items IH]; intros d0 Hnd; simpl.
  - by rewrite app_nil_r.
  - simpl in Hnd. rewrite dict_set_fresh.
    + rewrite IH; [by rewrite <-app_assoc|].
      rewrite fmap_app. simpl. by rewrite <-app_assoc.
    + apply NoDup_app in Hnd as (_ & Hd & _).
      intros Hin. apply (Hd k' Hin). left.
Qed.

(** The value under [k] is the one of the last item with key [k]. *)
Lemma dict_of_items_get k items :
  dict_get k (dict_of_items items) = dict_get k (reverse items).
Proof.
  unfold dict_of_items. rewrite dict_fold_get.
  by destruct (dict_get k (reverse items)).
Qed.

Lemma dict_of_items_NoDup items : NoDup (dict_of_items items).*1.
Proof. apply dict_fold_NoDup. constructor. Qed.

(** Without a repeated key the comprehension copies the items. *)
Lemma dict_of_items_fresh items :
  NoDup items.*1 → dict_of_items items = items.
Proof.
  intros Hnd. unfold dict_of_items. by rewrite dict_fold_fresh.
Qed.

Lemma dict_of_items_get_elem k v items :
  dict_get k (dict_of_items items) = Some v → (k, v) ∈ items.
Proof.
  rewrite dict_of_items_get. intros Hg.
  apply dict_get_Some_elem in Hg. by rewrite elem_of_reverse in Hg.
Qed.

Lemma dict_of_items_elem k v items :
  (k, v) ∈ dict_of_items items → (k, v) ∈ items.
Proof.
  intros Hin. apply dict_of_items_get_elem.
  apply dict_get_NoDup; [apply dict_of_items_NoDup | done].
Qed.

(** When every item with key [k] carries [v], so does the result. *)
Lemma dict_of_items_get_functional k v items :
  (k, v) ∈ items →
  (∀ v', (k, v') ∈ items → v' = v) →
  dict_get k (dict_of_items items) = Some v.
Proof.
  intros Hin Hfun.
  destruct (dict_get k (dict_of_items items)) as [v'|] eqn:Hg.
  - apply dict_of_items_get_elem in Hg. by rewrite (Hfun v' Hg).
  - rewrite dict_of_items_get in Hg. apply dict_get_None in Hg.
    exfalso. apply Hg. apply list_elem_of_fmap. exists (k, v).
    split; [done | by apply elem_of_reverse].
Qed.

Lemma dict_of_items_get_None k items :
  dict_get k (dict_of_items items) = None ↔ k ∉ items.*1.
Proof.
  rewrite dict_of_items_get, dict_get_None.
  by rewrite fmap_reverse, elem_of_reverse.
Qed.

End odict_facts.

(** * Facts about strings and normalization *)

Lemma clean_kept (s : str) : Forall (λ c, is_kept c) (clean_str_to_alphanum s).
Proof.
  apply Forall_forall. intros c Hc.
  by apply list_elem_of_filter in Hc as [? _].
Qed.

Lemma clean_fixed (s : str) :
  Forall (λ c, is_kept c) s → clean_str_to_alphanum s = s.
Proof.
  unfold clean_str_to_alphanum.
  induction 1 as [|c s Hc _ IH]; [done|].
  by rewrite filter_cons_True, IH.
Qed.

Lemma lstrip_fixed (chars s : str) :
  Forall (λ c, c ∉ chars) s → lstrip chars s = s.
Proof.
  destruct 1 as [|c s Hc _]; [done|]. simpl. unfold char_in.
  by rewrite bool_decide_eq_false_2.
Qed.

Lemma strip_fixed (chars s : str) :
  Forall (λ c, c ∉ chars) s → strip chars s = s.
Proof.
  intros Hs. unfold strip, rstrip. rewrite (lstrip_fixed _ s) by done.
  rewrite lstrip_fixed by (by apply Forall_reverse).
  apply reverse_involutive.
Qed.

Lemma sorted_str_Permutation (s : str) : sorted_str s ≡ₚ s.
Proof. apply merge_sort_Permutation. Qed.

Lemma sorted_str_kept (s : str) :
  Forall (λ c, is_kept c) s → Forall (λ c, is_kept c) (sorted_str s).
Proof. by rewrite sorted_str_Permutation. Qed.

Lemma Spelling_valid_kept (x : Spelling) :
  Spelling_valid x → Forall (λ c, is_kept c) (Spelling_s x).
Proof. intros [s ->]. apply clean_kept. Qed.

Lemma Pronunciation_valid_kept (x : Pronunciation) :
  Pronunciation_valid x → Forall (λ c, is_kept c) (Pronunciation_s x).
Proof. intros [s ->]. apply clean_kept. Qed.

Section separators.
(** The slash that delimits a transcription and the colon of the composite
    key are punctuation in every version of the Unicode table. *)
Hypothesis isalpha_slash : isalpha 47 = false.
Hypothesis isalpha_colon : isalpha 58 = false.

Lemma kept_not_slash (s : str) :
  Forall (λ c, is_kept c) s → Forall (λ c, c ∉ py "/") s.
Proof.
  intros Hs. eapply Forall_impl; [exact Hs|]. intros c Hc Hin.
  change (py "/") with [47] in Hin.
  apply list_elem_of_singleton in Hin as ->.
  unfold is_kept in Hc. by rewrite isalpha_slash in Hc.
Qed.

Lemma kept_not_colon (s : str) : Forall (λ c, is_kept c) s → 58 ∉ s.
Proof.
  intros Hs Hin. rewrite Forall_forall in Hs. specialize (Hs _ Hin).
  unfold is_kept in Hs. by rewrite isalpha_colon in Hs.
Qed.

Lemma normalize_fixed (s : str) :
  Forall (λ c, is_kept c) s → normalize_pronunciation s = s.
Proof.
  intros Hs. unfold normalize_pronunciation.
  rewrite strip_fixed by (by apply kept_not_slash). by apply clean_fixed.
Qed.

Lemma new_Pronunciation_valid (x : Pronunciation) :
  Pronunciation_valid x → new_Pronunciation (Pronunciation_s x) = x.
Proof.
  intros Hx. destruct x as [s]. unfold new_Pronunciation. simpl. f_equal.
  apply normalize_fixed. by apply (Pronunciation_valid_kept (mkPronunciation s)).
Qed.

Lemma Pronunciation_sorted_valid (x : Pronunciation) :
  Pronunciation_valid x →
  Pronunciation_sorted x = mkPronunciation (sorted_str (Pronunciation_s x)).
Proof.
  intros Hx. unfold Pronunciation_sorted, new_Pronunciation. f_equal.
  apply normalize_fixed, sorted_str_kept. by apply Pronunciation_valid_kept.
Qed.

(** The composite key determines the word. *)
Lemma json_safe_str_inj (w1 w2 : PronouncedWord) :
  Spelling_valid (spelling w1) → Spelling_valid (spelling w2) →
  json_safe_str w1 = json_safe_str w2 → w1 = w2.
Proof.
  destruct w1 as [[s1] [p1]], w2 as [[s2] [p2]]. simpl.
  intros H1%Spelling_valid_kept%kept_not_colon
         H2%Spelling_valid_kept%kept_not_colon.
  unfold json_safe_str. simpl in *. change (py ":") with [58].
  revert s2 H2. induction s1 as [|c s1 IH]; intros [|c2 s2] H2 Heq;
    simpl in Heq.
  - by simplify_eq.
  - simplify_eq. exfalso. apply H2. left.
  - simplify_eq. exfalso. apply H1. left.
  - injection Heq as -> Heq.
    apply not_elem_of_cons in H1 as [_ H1].
    apply not_elem_of_cons in H2 as [_ H2].
    specialize (IH H1 s2 H2 Heq). by simplify_eq.
Qed.

End separators.

(** * Facts about grouping *)

Section grouping.
Context {K T : Type} `{EqDecision K}.
Implicit Types (k : K) (w : T) (d : list (K * list T)) (f : T → K).

Lemma defaultdict_append_get k k' w d :
  dict_get k' (defaultdict_append k w d) =
    if decide (k = k') then Some (default [] (dict_get k' d) ++ [w])
    else dict_get k' d.
Proof.
  induction d as [|[k0 l0] d IH]; simpl.
  - by destruct (decide (k = k')).
  - destruct (decide (k0 = k)) as [->|Hne]; simpl.
    + by destruct (decide (k = k')).
    + rewrite IH. destruct (decide (k0 = k')) as [->|?]; [|done].
      by rewrite decide_False.
Qed.

Lemma defaultdict_append_keys k w d :
  (defaultdict_append k w d).*1 =
    if decide (k ∈ d.*1) then d.*1 else d.*1 ++ [k].
Proof.
  induction d as [|[k' l'] d IH].
  - destruct (decide (k ∈ ([] : list (K * list T)).*1)) as [Hin|Hin]; [|done].
    by apply elem_of_nil in Hin.
  - cbn [defaultdict_append]. rewrite fmap_cons. cbn [fst].
    destruct (decide (k' = k)) as [->|Hne].
    + rewrite decide_True by left. done.
    + rewrite fmap_cons, IH. cbn [fst].
      destruct (decide (k ∈ d.*1)) as [Hin|Hin].
      * rewrite decide_True by (by right). done.
      * rewrite decide_False; [done|].
        rewrite not_elem_of_cons. naive_solver.
Qed.


Lemma grouped_snoc f items w :
  grouped f (items ++ [w]) = defaultdict_append (f w) w (grouped f items).
Proof. unfold grouped. by rewrite foldl_snoc. Qed.

Lemma grouped_NoDup f items : NoDup (grouped f items).*1.
Proof.
  induction items as [|w items IH] using rev_ind; [constructor|].
  rewrite grouped_snoc, defaultdict_append_keys. case_decide; [done|].
  apply NoDup_app. split_and!; [done | | apply NoDup_singleton].
  by intros x Hx ->%list_elem_of_singleton.
Qed.


(** The group of [k] holds the items with key [k], in input order. *)
Lemma grouped_get f items k :
  dict_get k (grouped f items) =
    match filter (λ w, f w = k) items with
    | [] => None
    | l => Some l
    end.
Proof.
  induction items as [|w items IH] using rev_ind; [done|].
  rewrite grouped_snoc, defaultdict_append_get, filter_app, IH.
  rewrite filter_cons, filter_nil.
  destruct (decide (f w = k)) as [Hk|Hk].
  - by destruct (filter (λ w, f w = k) items).
  - rewrite app_nil_r. done.
Qed.

Lemma grouped_get_elem f items w :
  w ∈ items →
  dict_get (f w) (grouped f items) = Some (filter (λ w', f w' = f w) items).
Proof.
  intros Hw. rewrite grouped_get.
  assert (w ∈ filter (λ w', f w' = f w) items) as Hin
    by by apply list_elem_of_filter.
  destruct (filter (λ w', f w' = f w) items); [|done].
  by apply elem_of_nil in Hin.
Qed.

Lemma grouped_keys f items k :
  k ∈ (grouped f items).*1 ↔ ∃ w, w ∈ items ∧ f w = k.
Proof.
  rewrite <-dict_get_is_Some, grouped_get. split.
  - destruct (filter (λ w, f w = k) items) as [|w l] eqn:Hf.
    + by intros [? ?].
    + intros _. exists w.
      assert (w ∈ filter (λ w, f w = k) items) as Hin by (rewrite Hf; left).
      apply list_elem_of_filter in Hin as [Hk Hin]. done.
  - intros (w & Hw & Hk).
    assert (w ∈ filter (λ w, f w = k) items) as Hin
      by by apply list_elem_of_filter.
    destruct (filter (λ w, f w = k) items); [|done].
    by apply elem_of_nil in Hin.
Qed.

(** Renaming the keys by a map that is injective on them. *)
Lemma dict_get_fmap_key {K' V : Type} `{EqDecision K'} (g : K → K') k
    (d : list (K * V)) :
  (∀ k', k' ∈ d.*1 → g k' = g k → k' = k) →
  dict_get (g k) (prod_map g id <$> d) = dict_get k d.
Proof.
  induction d as [|[k0 v0] d IH]; intros Hinj; simpl; [done|].
  destruct (decide (k0 = k)) as [->|Hne].
  - by rewrite decide_True.
  - rewrite decide_False.
    + apply IH. intros k' Hk'. apply Hinj. by right.
    + intros Heq. apply Hne, Hinj; [left | done].
Qed.

End grouping.

(** * Facts about find_anagrams *)

Section find_anagrams_facts.
Context {T : Type} `{IsInstanceStr T}.
Implicit Types (w : T) (key : option (T → str)).

Lemma key_source_cases key w :
  (∃ s, key_source key w = Ok s) ∨
  (key_source key w = Raise TypeError ∧ key = None ∧ isinstance_str w = None).
Proof.
  unfold key_source. destruct key as [kf|]; [by left; eexists|].
  destruct (isinstance_str w); [by left; eexists | by right].
Qed.


Lemma find_anagrams_loop_Ok items key d :
  Forall (λ w, ∃ s, key_source key w = Ok s) items →
  find_anagrams_loop items key d =
    Ok (foldl (λ d w, defaultdict_append (sorted_key key w) w d) d items).
Proof.
  intros Hall. revert d.
  induction Hall as [|w items [s Hs] _ IH]; intros d; simpl; [done|].
  assert (sorted_key key w = sorted_str s) as ->
    by (unfold sorted_key; by rewrite Hs).
  rewrite Hs. simpl. by rewrite IH.
Qed.

Lemma find_anagrams_loop_Raise items key d :
  Exists (λ w, key_source key w = Raise TypeError) items →
  find_anagrams_loop items key d = Raise TypeError.
Proof.
  intros Hex. revert d.
  induction Hex as [w items Hw|w items _ IH]; intros d; simpl.
  - by rewrite Hw.
  - destruct (key_source_cases key w) as [[s ->]|[-> _]]; simpl; [apply IH|done].
Qed.

Lemma find_anagrams_Ok items key :
  Forall (λ w, ∃ s, key_source key w = Ok s) items →
  find_anagrams items key =
    Ok (dict_of_items
          (prod_map new_Pronunciation id <$> grouped (sorted_key key) items)).
Proof.
  intros Hall. unfold find_anagrams.
  rewrite find_anagrams_loop_Ok by done. simpl. do 2 f_equal.
  apply list_fmap_ext. by intros _ [letters word_list] _.
Qed.

Lemma find_anagrams_Raise items key :
  Exists (λ w, key_source key w = Raise TypeError) items →
  find_anagrams items key = Raise TypeError.
Proof.
  intros Hex. unfold find_anagrams.
  by rewrite find_anagrams_loop_Raise.
Qed.

Lemma wrap_injective_NoDup items key :
  wrap_injective key items →
  NoDup (prod_map new_Pronunciation id <$> grouped (sorted_key key) items).*1.
Proof.
  intros Hinj. rewrite <-list_fmap_compose.
  rewrite (list_fmap_ext _ (new_Pronunciation ∘ fst) (grouped _ _))
    by (by intros _ [] _).
  rewrite list_fmap_compose. apply NoDup_fmap_2_strong.
  - intros k1 k2 (w1 & Hw1 & <-)%grouped_keys (w2 & Hw2 & <-)%grouped_keys.
    by apply Hinj.
  - apply grouped_NoDup.
Qed.

(** With keys kept apart, the group of an item holds the items of its
    sorted key. *)
Lemma find_anagrams_get items key w :
  Forall (λ w, ∃ s, key_source key w = Ok s) items →
  wrap_injective key items →
  w ∈ items →
  ∃ r, find_anagrams items key = Ok r ∧
    dict_get (new_Pronunciation (sorted_key key w)) r =
      Some (filter (λ w', sorted_key key w' = sorted_key key w) items).
Proof.
  intros Hall Hinj Hw. eexists. split; [by apply find_anagrams_Ok|].
  rewrite dict_of_items_fresh by by apply wrap_injective_NoDup.
  rewrite dict_get_fmap_key.
  - by apply grouped_get_elem.
  - intros k' (w' & Hw' & <-)%grouped_keys. by apply Hinj.
Qed.

End find_anagrams_facts.

(** * Facts about deduplicate_pronunciations *)

Lemma deduplicate_loop_sublist words seen unique pre :
  unique `sublist_of` pre →
  deduplicate_loop words seen unique `sublist_of` pre ++ words.
Proof.
  revert seen unique pre.
  induction words as [|word rest IH]; intros seen unique pre Hsub; simpl.
  - by rewrite app_nil_r.
  - rewrite (cons_middle word pre rest), app_assoc. case_decide.
    + apply IH. by apply sublist_inserts_r.
    + apply IH. by apply sublist_app.
Qed.

Lemma deduplicate_loop_NoDup words (seen : gset Pronunciation) unique :
  NoDup (pronunciation <$> unique) →
  (∀ p, p ∈ pronunciation <$> unique → p ∈ seen) →
  NoDup (pronunciation <$> deduplicate_loop words seen unique).
Proof.
  revert seen unique.
  induction words as [|word rest IH]; intros seen unique Hnd Hseen; simpl.
  - done.
  - case_decide as Hin.
    + by apply IH.
    + apply IH.
      * rewrite fmap_app. apply NoDup_app. split_and!; [done | |].
        -- intros p Hp ->%list_elem_of_singleton. by apply Hin, Hseen.
        -- apply NoDup_singleton.
      * intros p. rewrite fmap_app, elem_of_app. simpl.
        rewrite list_elem_of_singleton, elem_of_union, elem_of_singleton.
        intros [Hp| ->]; [right; by apply Hseen | by left].
Qed.

Lemma deduplicate_loop_first words (seen : gset Pronunciation) unique pre :
  (∀ p, p ∈ seen ↔ p ∈ pronunciation <$> pre) →
  deduplicate_loop words seen unique =
    unique ++
    omap (λ i,
        word ← (pre ++ words) !! i;
        if decide (pronunciation word ∈ pronunciation <$> take i (pre ++ words))
        then None else Some word)
      (seq (length pre) (length words)).
Proof.
  revert seen unique pre.
  induction words as [|word rest IH]; intros seen unique pre Hseen.
  - simpl. by rewrite app_nil_r.
  - cbn [deduplicate_loop length seq omap list_omap].
    rewrite list_lookup_middle by done. cbn [mbind option_bind].
    rewrite take_app_length.
    rewrite (cons_middle word pre rest), (app_assoc pre [word] rest).
    replace (S (length pre)) with (length (pre ++ [word]))
      by (rewrite length_app; simpl; lia).
    assert (∀ X : gset Pronunciation,
      pronunciation word ∈ X → (∀ p, p ∈ X → p = pronunciation word ∨ p ∈ seen) →
      seen ⊆ X →
      ∀ p, p ∈ X ↔ p ∈ pronunciation <$> (pre ++ [word])) as Hnext.
    { intros X HwX HX Hsub p. rewrite fmap_app, elem_of_app. simpl.
      rewrite list_elem_of_singleton, <-Hseen. split.
      - intros Hp. destruct (HX p Hp) as [->|?]; [by right | by left].
      - intros [Hp| ->]; [by apply Hsub | done]. }
    destruct (decide (pronunciation word ∈ seen)) as [Hin|Hin];
      destruct (decide (pronunciation word ∈ pronunciation <$> pre))
        as [Hin'|Hin']; try (exfalso; by rewrite Hseen in Hin).
    + apply IH, Hnext; [done | by right | done].
    + rewrite (IH _ _ (pre ++ [word])).
      * by rewrite <-app_assoc.
      * apply Hnext.
        -- apply elem_of_union. left. by apply elem_of_singleton.
        -- intros p [->%elem_of_singleton|?]%elem_of_union;
             [by left | by right].
        -- apply union_subseteq_r.
Qed.

Lemma deduplicate_first words :
  deduplicate_pronunciations words = first_occurrences words.
Proof.
  unfold deduplicate_pronunciations, first_occurrences.
  rewrite (deduplicate_loop_first words ∅ [] []); [done|].
  intros p. rewrite fmap_nil. set_solver.
Qed.

Lemma deduplicate_sublist words :
  deduplicate_pronunciations words `sublist_of` words.
Proof. by apply (deduplicate_loop_sublist words ∅ [] []). Qed.

Lemma deduplicate_NoDup words :
  NoDup (pronunciation <$> deduplicate_pronunciations words).
Proof.
  apply deduplicate_loop_NoDup; [constructor|].
  intros p Hp. by apply elem_of_nil in Hp.
Qed.

(** * Facts about the dictionaries and the report loop *)

Lemma elem_of_flatten data w :
  w ∈ flatten_to_pronounced_words data ↔
  ∃ ps, (spelling w, ps) ∈ data ∧ pronunciation w ∈ ps.
Proof.
  unfold flatten_to_pronounced_words. rewrite list_elem_of_bind. split.
  - intros ([sp ps] & Hw & He). apply list_elem_of_bind in Hw as (p & Hw & Hp).
    apply list_elem_of_singleton in Hw as ->. by exists ps.
  - intros (ps & He & Hp). exists (spelling w, ps). split; [|done].
    apply list_elem_of_bind. exists (pronunciation w). split; [|done].
    destruct w. apply list_elem_of_singleton. done.
Qed.

Lemma flatten_valid data w :
  IPADict_valid data → w ∈ flatten_to_pronounced_words data →
  Spelling_valid (spelling w) ∧ Pronunciation_valid (pronunciation w).
Proof.
  intros Hv (ps & He & Hp)%elem_of_flatten.
  unfold IPADict_valid in Hv. rewrite Forall_forall in Hv.
  destruct (Hv _ He) as [Hs Hps]. split; [done|].
  rewrite Forall_forall in Hps. by apply Hps.
Qed.

Lemma foldl_filter {A B} (P : B → bool) (h : A → B → A) (a : A)
    (l : list B) :
  foldl (λ a x, if P x then h a x else a) a l =
    foldl h a (filter (λ x, P x) l).
Proof.
  revert a. induction l as [|x l IH]; intros a; simpl; [done|].
  rewrite filter_cons, IH. by destruct (P x).
Qed.

Lemma main_loop_Ok pad (G : PronouncedWord → list PronouncedWord) words r :
  (∀ w, w ∈ words →
     PhoneticAnagramDict_getitem pad (inr (pronunciation w)) = Ok (G w)) →
  main_loop pad words r =
    Ok (mkReports
          (foldl (λ d w, dict_set (json_safe_str w) (joined (G w)) d)
             (anaphones r) words)
          (foldl (λ d w, dict_set (json_safe_str w)
                           (joined (deduplicate_pronunciations (G w))) d)
             (anaphones_unique_pronunciation r) words)
          (foldl (λ d w,
                if bool_decide
                     (1 < length (deduplicate_pronunciations (G w)))%nat
                then dict_set (json_safe_str w)
                       (joined (deduplicate_pronunciations (G w))) d
                else d)
             (anaphones_nontrivial_unique_pronunciation r) words)).
Proof.
  revert r. induction words as [|w words IH]; intros r HG.
  - by destruct r.
  - cbn [main_loop]. unfold main_step. rewrite HG by left.
    cbn [mbind result_bind]. rewrite IH; [done|].
    intros w' Hw'. apply HG. by right.
Qed.

Lemma report_get data dedup words w :
  (∀ w', w' ∈ words → Spelling_valid (spelling w')) →
  (∀ w1 w2, Spelling_valid (spelling w1) → Spelling_valid (spelling w2) →
     json_safe_str w1 = json_safe_str w2 → w1 = w2) →
  w ∈ words →
  dict_get (json_safe_str w) (dict_of_items (report_entry data dedup <$> words))
    = Some (report_entry data dedup w).2.
Proof.
  intros Hvalid Hinj Hw. apply dict_of_items_get_functional.
  - apply list_elem_of_fmap. by exists w.
  - intros v' (w' & Heq & Hw')%list_elem_of_fmap.
    unfold report_entry in Heq. injection Heq as Hk ->.
    by rewrite (Hinj w w') by auto.
Qed.

Lemma report_get_Some data dedup words k v :
  dict_get k (dict_of_items (report_entry data dedup <$> words)) = Some v →
  ∃ w, w ∈ words ∧ k = json_safe_str w ∧ v = (report_entry data dedup w).2.
Proof.
  intros (w & Heq & Hw)%dict_of_items_get_elem%list_elem_of_fmap.
  exists w. unfold report_entry in *. by simplify_eq.
Qed.

Section pipeline.
Hypothesis isalpha_slash : isalpha 47 = false.
Hypothesis isalpha_colon : isalpha 58 = false.

Lemma flatten_key_sources data :
  Forall (λ w, ∃ s, key_source (Some get_pronunciation_str) w = Ok s)
    (flatten_to_pronounced_words data).
Proof. apply Forall_forall. intros w _. by eexists. Qed.

Lemma flatten_wrap_injective data :
  IPADict_valid data →
  wrap_injective (Some get_pronunciation_str)
    (flatten_to_pronounced_words data).
Proof.
  intros Hv w1 w2 [_ H1]%(flatten_valid _ _ Hv) [_ H2]%(flatten_valid _ _ Hv).
  unfold sorted_key, key_source, get_pronunciation_str.
  change (new_Pronunciation (sorted_str (Pronunciation_s (pronunciation w1))))
    with (Pronunciation_sorted (pronunciation w1)).
  change (new_Pronunciation (sorted_str (Pronunciation_s (pronunciation w2))))
    with (Pronunciation_sorted (pronunciation w2)).
  rewrite !Pronunciation_sorted_valid by done. by intros [= ->].
Qed.

(** Every word of the dictionary finds its anagram group in the index. *)
Lemma from_IPADict_getitem data :
  IPADict_valid data →
  ∃ pad, from_IPADict data = Ok pad ∧
    ∀ w, w ∈ flatten_to_pronounced_words data →
      PhoneticAnagramDict_getitem pad (inr (pronunciation w)) =
        Ok (anagram_group data w).
Proof.
  intros Hv. unfold from_IPADict.
  rewrite (find_anagrams_Ok _ _ (flatten_key_sources data)).
  eexists. split; [done|]. intros w Hw.
  destruct (find_anagrams_get _ _ w (flatten_key_sources data)
              (flatten_wrap_injective data Hv) Hw) as (r & Hr & Hget).
  rewrite (find_anagrams_Ok _ _ (flatten_key_sources data)) in Hr.
  injection Hr as <-. unfold PhoneticAnagramDict_getitem, getitem.
  change (Pronunciation_sorted (pronunciation w)) with
    (new_Pronunciation (sorted_key (Some get_pronunciation_str) w)).
  by rewrite Hget.
Qed.

Lemma main_reports_Ok data :
  IPADict_valid data → main_reports data = Ok (reports_of data).
Proof.
  intros Hv. unfold main_reports.
  destruct (from_IPADict_getitem data Hv) as (pad & -> & Hget).
  cbn [mbind result_bind].
  rewrite (main_loop_Ok pad (anagram_group data)) by done.
  cbn [anaphones anaphones_unique_pronunciation
       anaphones_nontrivial_unique_pronunciation].
  unfold reports_of, dict_of_items. f_equal. f_equal.
  - by rewrite foldl_fmap.
  - by rewrite foldl_fmap.
  - rewrite foldl_fmap.
    by rewrite <-(foldl_filter (nontrivial data)
      (λ d w, dict_set (report_entry data true w).1
                (report_entry data true w).2 d)).
Qed.

End pipeline.

(** * Facts about from_file *)

Lemma from_file_entries_Ok (raw : list (str * str)) :
  from_file_entries (prod_map id JStr <$> raw) = Ok (from_file_entry <$> raw).
Proof.
  induction raw as [|[k v] raw IH]; [done|].
  rewrite !fmap_cons. cbn [prod_map fst snd id from_file_entries json_split].
  cbn [mbind result_bind]. rewrite IH. done.
Qed.

Lemma from_file_entries_Raise (items : list (str * json)) :
  Exists (λ kv, ∀ s, kv.2 ≠ JStr s) items →
  from_file_entries items = Raise AttributeError.
Proof.
  induction items as [|[k v] items IH]; intros Hex.
  - by apply Exists_nil in Hex.
  - cbn [from_file_entries]. destruct v; try done.
    cbn [json_split mbind result_bind]. rewrite IH; [done|].
    apply Exists_cons in Hex as [Hv|Hex]; [|done].
    by destruct (Hv s).
Qed.

Lemma from_file_Ok top language (raw : list (str * str)) :
  dict_get language top = Some (JArr [JObj (prod_map id JStr <$> raw)]) →
  from_file (JObj top) language = Ok (dict_of_items (from_file_entry <$> raw)).
Proof.
  intros Hget. unfold from_file, json_subscript, getitem. rewrite Hget.
  cbn [mbind result_bind unpack_single json_items].
  by rewrite from_file_entries_Ok.
Qed.

Section sets.
(** Listing a set yields its elements, in an order the hashes decide. *)
Hypothesis list_of_set_elem :
  ∀ (X : gset Pronunciation) p, p ∈ list_of_set X ↔ p ∈ X.

Lemma from_file_entry_elem kv p :
  p ∈ (from_file_entry kv).2 ↔ p ∈ new_Pronunciation <$> split2 44 32 kv.2.
Proof.
  unfold from_file_entry. cbn [snd].
  by rewrite list_of_set_elem, elem_of_list_to_set.
Qed.

Lemma from_file_valid (raw : list (str * str)) :
  IPADict_valid (dict_of_items (from_file_entry <$> raw)).
Proof.
  apply Forall_forall. intros [sp ps] Hin.
  apply dict_of_items_elem, list_elem_of_fmap in Hin as (kv & Heq & _).
  split.
  - rewrite Heq. by eexists.
  - apply Forall_forall. intros p Hp. cbn [snd] in Hp.
    assert (p ∈ (from_file_entry kv).2) as Hp' by by rewrite <-Heq.
    apply from_file_entry_elem, list_elem_of_fmap in Hp' as (s & -> & _).
    by eexists.
Qed.

End sets.

(** * The claims *)

Section claims.
Hypothesis isalpha_slash : isalpha 47 = false.
Hypothesis isalpha_colon : isalpha 58 = false.
Hypothesis list_of_set_elem :
  ∀ (X : gset Pronunciation) p, p ∈ list_of_set X ↔ p ∈ X.

Lemma Forall_or_Exists {A} (P Q : A → Prop) (l : list A) :
  (∀ x, P x ∨ Q x) → Forall P l ∨ Exists Q l.
Proof.
  intros HPQ. induction l as [|x l [IH|IH]].
  - left. constructor.
  - destruct (HPQ x) as [Hx|Hx].
    + left. by constructor.
    + right. by left.
  - right. by right.
Qed.

(** C8: normalization is idempotent: applying [clean_str_to_alphanum] to
    its own result returns that result, for every string. *)
Theorem clean_str_to_alphanum_idempotent (s : str) :
  clean_str_to_alphanum (clean_str_to_alphanum s) = clean_str_to_alphanum s.
Proof. apply clean_fixed, clean_kept. Qed.

(** C7: [find_anagrams] raises [TypeError] exactly when the key extractor
    is omitted and some item is not a string; with a key extractor, or with
    only strings, it returns a mapping. *)
Theorem find_anagrams_TypeError {T : Type} `{IsInstanceStr T}
    (spellings : list T) (key : option (T → str)) :
  (find_anagrams spellings key = Raise TypeError ↔
     key = None ∧ ∃ w, w ∈ spellings ∧ isinstance_str w = None) ∧
  (is_Some key ∨ (∀ w, w ∈ spellings → is_Some (isinstance_str w)) →
     ∃ r, find_anagrams spellings key = Ok r).
Proof.
  destruct (Forall_or_Exists
    (λ w, ∃ s, key_source key w = Ok s)
    (λ w, key_source key w = Raise TypeError ∧ key = None ∧
          isinstance_str w = None)
    spellings (key_source_cases key)) as [Hall|Hex].
  - rewrite (find_anagrams_Ok _ _ Hall). split.
    + split; [done|]. intros (-> & w & Hw & Hnone).
      rewrite Forall_forall in Hall. destruct (Hall w Hw) as [s Hs].
      unfold key_source in Hs. by rewrite Hnone in Hs.
    + intros _. by eexists.
  - assert (find_anagrams spellings key = Raise TypeError) as Hraise.
    { apply find_anagrams_Raise. eapply Exists_impl; [exact Hex|].
      by intros w [? _]. }
    apply Exists_exists in Hex as (w & Hw & _ & -> & Hnone).
    split.
    + split; [|done]. intros _. split; [done|]. by exists w.
    + intros [[? [=]]|Hstr]. destruct (Hstr w Hw) as [s Hs]. congruence.
Qed.


(** C5 (amended): the wrapping of each group key as a [Pronunciation] is
    done inside [find_anagrams]: the keys of the mapping it returns are the
    [Pronunciation] values built from the sorted key strings of the items,
    and [from_IPADict] hands that mapping on as it is. *)
Theorem find_anagrams_wraps_keys :
  (∀ data, from_IPADict data =
     find_anagrams (flatten_to_pronounced_words data)
       (Some get_pronunciation_str)) ∧
  (∀ (T : Type) (HT : IsInstanceStr T) (spellings : list T) key r,
     find_anagrams spellings key = Ok r →
     ∀ K, K ∈ r.*1 ↔
       ∃ w s, w ∈ spellings ∧ key_source key w = Ok s ∧
         K = new_Pronunciation (sorted_str s)).
Proof.
  split; [done|]. intros T HT spellings key r Hr K.
  destruct (Forall_or_Exists
    (λ w, ∃ s, key_source key w = Ok s)
    (λ w, key_source key w = Raise TypeError ∧ key = None ∧
          isinstance_str w = None)
    spellings (key_source_cases key)) as [Hall|Hex].
  - rewrite (find_anagrams_Ok _ _ Hall) in Hr. injection Hr as <-.
    destruct (decide (K ∈ (dict_of_items
      (prod_map new_Pronunciation id <$>
         grouped (sorted_key key) spellings)).*1)) as [Hin|Hin].
    + split; [intros _|done].
      apply dict_get_is_Some in Hin as [v Hv].
      apply dict_of_items_get_elem, list_elem_of_fmap in Hv
        as ([k l] & [= -> ->] & Hkl).
      assert (k ∈ (grouped (sorted_key key) spellings).*1) as Hk
        by (apply list_elem_of_fmap; by exists (k, l)).
      apply grouped_keys in Hk as (w & Hw & <-).
      rewrite Forall_forall in Hall. destruct (Hall w Hw) as [s Hs].
      exists w, s. split_and!; [done..|].
      unfold sorted_key. by rewrite Hs.
    + split; [done|]. intros (w & s & Hw & Hs & ->). exfalso. apply Hin.
      apply dict_get_is_Some. apply not_eq_None_Some.
      rewrite dict_of_items_get_None. intros Hnot. apply Hnot.
      rewrite <-list_fmap_compose. apply list_elem_of_fmap.
      assert (sorted_str s ∈ (grouped (sorted_key key) spellings).*1) as Hk.
      { apply grouped_keys. exists w. split; [done|].
        unfold sorted_key. by rewrite Hs. }
      apply list_elem_of_fmap in Hk as ([k l] & Hk & Hkl). simpl in Hk.
      exists (k, l). split; [|done]. simpl. by rewrite Hk.
  - rewrite find_anagrams_Raise in Hr; [done|].
    eapply Exists_impl; [exact Hex|]. by intros w [? _].
Qed.

Lemma anagram_group_self data w :
  w ∈ flatten_to_pronounced_words data → w ∈ anagram_group data w.
Proof. intros Hw. by apply list_elem_of_filter. Qed.

Lemma flatten_spelling_valid data :
  IPADict_valid data →
  ∀ w, w ∈ flatten_to_pronounced_words data → Spelling_valid (spelling w).
Proof. intros Hv w Hw. by destruct (flatten_valid data w Hv Hw). Qed.

(** C2: looking up the pronunciation of a word of the flattened Source
    Dictionary in the Phonetic Anagram Dictionary sorts the query, succeeds,
    and returns a list that contains the word; its composite key is one of
    the keys joined in its entry of Report A. *)
Theorem lookup_self_membership data w :
  IPADict_valid data →
  w ∈ flatten_to_pronounced_words data →
  ∃ pad G R,
    from_IPADict data = Ok pad ∧
    PhoneticAnagramDict_getitem pad (inr (pronunciation w)) =
      getitem pad (Pronunciation_sorted (pronunciation w)) ∧
    PhoneticAnagramDict_getitem pad (inr (pronunciation w)) = Ok G ∧
    w ∈ G ∧
    main_reports data = Ok R ∧
    dict_get (json_safe_str w) (anaphones R) =
      Some (join (py ", ") (json_safe_str <$> G)) ∧
    json_safe_str w ∈ json_safe_str <$> G.
Proof.
  intros Hv Hw.
  destruct (from_IPADict_getitem isalpha_slash data Hv) as (pad & Hpad & Hget).
  exists pad, (anagram_group data w), (reports_of data).
  split_and!; [done | done | by apply Hget | by apply anagram_group_self
              | by apply main_reports_Ok | |].
  - apply (report_get data false).
    + by apply flatten_spelling_valid.
    + apply (json_safe_str_inj isalpha_colon).
    + done.
  - apply list_elem_of_fmap. exists w. split; [done|].
    by apply anagram_group_self.
Qed.

(** C3: the entry of Report B for a word is its anagram group with, in
    scanning order, only the first word of each pronunciation kept; its
    members are members of the Report A entry and no two of them share a
    pronunciation. *)
Theorem report_B_first_occurrences data w :
  IPADict_valid data →
  w ∈ flatten_to_pronounced_words data →
  ∃ pad G R,
    from_IPADict data = Ok pad ∧
    PhoneticAnagramDict_getitem pad (inr (pronunciation w)) = Ok G ∧
    main_reports data = Ok R ∧
    dict_get (json_safe_str w) (anaphones R) = Some (joined G) ∧
    dict_get (json_safe_str w) (anaphones_unique_pronunciation R) =
      Some (joined (deduplicate_pronunciations G)) ∧
    deduplicate_pronunciations G = first_occurrences G ∧
    deduplicate_pronunciations G `sublist_of` G ∧
    json_safe_str <$> deduplicate_pronunciations G ⊆ json_safe_str <$> G ∧
    NoDup (pronunciation <$> deduplicate_pronunciations G).
Proof.
  intros Hv Hw.
  destruct (from_IPADict_getitem isalpha_slash data Hv) as (pad & Hpad & Hget).
  exists pad, (anagram_group data w), (reports_of data).
  split_and!; [done | by apply Hget | by apply main_reports_Ok | | |
               apply deduplicate_first | apply deduplicate_sublist | |
               apply deduplicate_NoDup].
  - apply (report_get data false);
      [by apply flatten_spelling_valid
      | apply (json_safe_str_inj isalpha_colon) | done].
  - apply (report_get data true);
      [by apply flatten_spelling_valid
      | apply (json_safe_str_inj isalpha_colon) | done].
  - intros k (w' & -> & Hw')%list_elem_of_fmap. apply list_elem_of_fmap.
    exists w'. split; [done|].
    by apply (sublist_subseteq _ _ (deduplicate_sublist _)).
Qed.

(** C4: Report C has exactly the entries of Report B whose deduplicated
    list has more than one member, with the same values. *)
Theorem report_C_restricts_report_B data :
  IPADict_valid data →
  ∃ pad R,
    from_IPADict data = Ok pad ∧
    main_reports data = Ok R ∧
    ∀ k v,
      dict_get k (anaphones_nontrivial_unique_pronunciation R) = Some v ↔
      dict_get k (anaphones_unique_pronunciation R) = Some v ∧
      ∃ w G, w ∈ flatten_to_pronounced_words data ∧ json_safe_str w = k ∧
        PhoneticAnagramDict_getitem pad (inr (pronunciation w)) = Ok G ∧
        v = joined (deduplicate_pronunciations G) ∧
        (1 < length (deduplicate_pronunciations G))%nat.
Proof.
  intros Hv.
  destruct (from_IPADict_getitem isalpha_slash data Hv) as (pad & Hpad & Hget).
  exists pad, (reports_of data).
  split_and!; [done | by apply main_reports_Ok |].
  intros k v. cbn [reports_of anaphones_unique_pronunciation
                   anaphones_nontrivial_unique_pronunciation].
  pose proof (flatten_spelling_valid data Hv) as Hsp.
  pose proof (json_safe_str_inj isalpha_colon) as Hinj.
  split.
  - intros (w & Hw & -> & ->)%report_get_Some.
    apply list_elem_of_filter in Hw as [Hnt Hw].
    split; [by apply (report_get data true)|].
    exists w, (anagram_group data w).
    split_and!; [done | done | by apply Hget | done |].
    unfold nontrivial in Hnt. by apply bool_decide_unpack in Hnt.
  - intros (HB & w & G & Hw & <- & HG & -> & Hlen).
    rewrite Hget in HG by done. injection HG as <-.
    assert (w ∈ filter (λ w, nontrivial data w)
                  (flatten_to_pronounced_words data)) as Hw'.
    { apply list_elem_of_filter. split; [|done].
      unfold nontrivial. by apply bool_decide_pack. }
    rewrite (report_get data true _ w); [done | | done | done].
    intros w' [_ ?]%list_elem_of_filter. by apply Hsp.
Qed.

(** C6: [from_file] fails with [KeyError] (a lookup error) when the language
    key is absent from the document, fails with an error of the format kind
    when the value under the key is not a one-element array holding a JSON
    object, and returns a dictionary when the document has the expected
    shape. *)
Theorem from_file_errors (top : list (str * json)) (language : str) :
  (dict_get language top = None →
     ∃ e, from_file (JObj top) language = Raise e ∧ is_LookupError e) ∧
  (∀ value, dict_get language top = Some value →
     (∀ d, value ≠ JArr [JObj d]) →
     ∃ e, from_file (JObj top) language = Raise e ∧ is_FormatError e) ∧
  (∀ raw : list (str * str),
     dict_get language top = Some (JArr [JObj (prod_map id JStr <$> raw)]) →
     from_file (JObj top) language =
       Ok (dict_of_items (from_file_entry <$> raw))).
Proof.
  split_and!.
  - intros Hget. exists KeyError. split; [|done].
    unfold from_file, json_subscript, getitem. by rewrite Hget.
  - intros value Hget Hshape.
    unfold from_file, json_subscript, getitem. rewrite Hget.
    cbn [mbind result_bind]. unfold is_FormatError.
    destruct value as [| | | |s|l|l].
    + exists TypeError. split; [done | by right; left].
    + exists TypeError. split; [done | by right; left].
    + exists TypeError. split; [done | by right; left].
    + exists TypeError. split; [done | by right; left].
    + destruct s as [|c [|c' s]].
      * exists ValueError. split; [done | by left].
      * exists AttributeError. split; [done | by right; right].
      * exists ValueError. split; [done | by left].
    + destruct l as [|d [|d' l]].
      * exists ValueError. split; [done | by left].
      * destruct d; try (exists AttributeError; split;
                         [done | by right; right]).
        by destruct (Hshape items).
      * exists ValueError. split; [done | by left].
    + destruct l as [|[k v] [|kv l]].
      * exists ValueError. split; [done | by left].
      * exists AttributeError. split; [done | by right; right].
      * exists ValueError. split; [done | by left].
  - apply from_file_Ok.
Qed.

Lemma sorted_str_nil (s : str) : sorted_str s = [] ↔ s = [].
Proof.
  split; [|by intros ->].
  intros Hs. apply Permutation_nil_r. rewrite <-Hs.
  symmetry. apply sorted_str_Permutation.
Qed.

Lemma reports_of_entries data k v :
  dict_get k (anaphones (reports_of data)) = Some v ∨
  dict_get k (anaphones_unique_pronunciation (reports_of data)) = Some v ∨
  dict_get k (anaphones_nontrivial_unique_pronunciation (reports_of data))
    = Some v →
  ∃ w G, w ∈ flatten_to_pronounced_words data ∧ k = json_safe_str w ∧
    v = joined G ∧ G ⊆ flatten_to_pronounced_words data.
Proof.
  assert (∀ w, anagram_group data w ⊆ flatten_to_pronounced_words data)
    as Hsub by (intros w; apply list_subseteq_filter).
  assert (∀ w, deduplicate_pronunciations (anagram_group data w)
               ⊆ flatten_to_pronounced_words data) as Hsub'.
  { intros w. etrans; [|apply Hsub].
    apply sublist_subseteq, deduplicate_sublist. }
  cbn [reports_of anaphones anaphones_unique_pronunciation
       anaphones_nontrivial_unique_pronunciation].
  intros [H|[H|H]]; apply report_get_Some in H as (w & Hw & -> & ->).
  - exists w, (anagram_group data w). by split_and!.
  - exists w, (deduplicate_pronunciations (anagram_group data w)).
    by split_and!.
  - apply list_elem_of_filter in Hw as [_ Hw].
    exists w, (deduplicate_pronunciations (anagram_group data w)).
    by split_and!.
Qed.

(** C10: when several raw spellings of the input normalize to one
    [Spelling], [from_file] keeps a single entry for it, holding the
    pronunciations of the last of them in input order; every flattened word
    with that spelling has one of those pronunciations, and the reports
    hold flattened words only. *)
Theorem from_file_spelling_collision (top : list (str * json))
    (language : str) (before after : list (str * str)) (k v : str) :
  dict_get language top =
    Some (JArr [JObj (prod_map id JStr <$> (before ++ (k, v) :: after))]) →
  (∀ kv, kv ∈ after → new_Spelling kv.1 ≠ new_Spelling k) →
  ∃ data R,
    from_file (JObj top) language = Ok data ∧
    NoDup data.*1 ∧
    dict_get (new_Spelling k) data = Some (from_file_entry (k, v)).2 ∧
    (∀ w, w ∈ flatten_to_pronounced_words data →
       spelling w = new_Spelling k →
       pronunciation w ∈ new_Pronunciation <$> split2 44 32 v) ∧
    main_reports data = Ok R ∧
    (∀ k' v',
       dict_get k' (anaphones R) = Some v' ∨
       dict_get k' (anaphones_unique_pronunciation R) = Some v' ∨
       dict_get k' (anaphones_nontrivial_unique_pronunciation R) = Some v' →
       ∃ w G, w ∈ flatten_to_pronounced_words data ∧ k' = json_safe_str w ∧
         v' = joined G ∧ G ⊆ flatten_to_pronounced_words data).
Proof.
  intros Hget Hlast.
  set (raw := before ++ (k, v) :: after) in *.
  set (data := dict_of_items (from_file_entry <$> raw)).
  assert (dict_get (new_Spelling k) data = Some (from_file_entry (k, v)).2)
    as Hentry.
  { unfold data, raw. rewrite dict_of_items_get.
    rewrite fmap_app, fmap_cons, reverse_app, reverse_cons, <-app_assoc.
    rewrite dict_get_app.
    assert (dict_get (new_Spelling k) (reverse (from_file_entry <$> after))
              = None) as ->.
    { apply dict_get_None. rewrite fmap_reverse, elem_of_reverse.
      rewrite <-list_fmap_compose.
      intros (kv & Heq & Hkv)%list_elem_of_fmap.
      by apply (Hlast kv Hkv). }
    simpl. by rewrite decide_True. }
  exists data, (reports_of data).
  split_and!.
  - by apply from_file_Ok.
  - apply dict_of_items_NoDup.
  - done.
  - intros w (ps & He & Hp)%elem_of_flatten Hsp.
    apply dict_get_NoDup in He; [|apply dict_of_items_NoDup].
    rewrite Hsp, Hentry in He. injection He as <-.
    by apply (from_file_entry_elem list_of_set_elem (k, v)) in Hp.
  - apply (main_reports_Ok isalpha_slash).
    apply (from_file_valid list_of_set_elem).
  - apply reports_of_entries.
Qed.

(** C9 (amended): on a document of the expected shape every stage
    completes, whatever normalizes to the empty string: the dictionary
    loads, the index is built, every lookup of a flattened word succeeds and
    the reports are produced.  Every flattened word, whatever its spelling,
    is grouped by its pronunciation: its lookup returns the group under its
    sorted pronunciation, which holds the word and exactly the flattened
    words whose pronunciation has the same letters.  The words whose
    pronunciation is empty are exactly the members of the group under the
    empty key. *)
Theorem empty_pronunciations_grouped (top : list (str * json))
    (raw : list (str * str)) :
  dict_get (py "en_US") top =
    Some (JArr [JObj (prod_map id JStr <$> raw)]) →
  ∃ data pad R,
    from_file (JObj top) (py "en_US") = Ok data ∧
    from_IPADict data = Ok pad ∧
    (∀ w, w ∈ flatten_to_pronounced_words data →
       ∃ G, PhoneticAnagramDict_getitem pad (inr (pronunciation w)) = Ok G ∧
         dict_get
           (mkPronunciation (sorted_str (Pronunciation_s (pronunciation w))))
           pad = Some G ∧
         w ∈ G ∧
         ∀ w', w' ∈ G ↔
           w' ∈ flatten_to_pronounced_words data ∧
           sorted_str (Pronunciation_s (pronunciation w')) =
             sorted_str (Pronunciation_s (pronunciation w))) ∧
    main (JObj top) = Ok R ∧
    ∀ w, w ∈ flatten_to_pronounced_words data →
      Pronunciation_s (pronunciation w) = [] →
      ∃ G, dict_get (mkPronunciation []) pad = Some G ∧ w ∈ G ∧
        ∀ w', w' ∈ G ↔
          w' ∈ flatten_to_pronounced_words data ∧
          Pronunciation_s (pronunciation w') = [].
Proof.
  intros Hget.
  set (data := dict_of_items (from_file_entry <$> raw)).
  assert (IPADict_valid data) as Hv
    by apply (from_file_valid list_of_set_elem).
  destruct (from_IPADict_getitem isalpha_slash data Hv) as (pad & Hpad & Hlook).
  exists data, pad, (reports_of data).
  split_and!.
  - by apply from_file_Ok.
  - done.
  - intros w Hw. exists (anagram_group data w).
    pose proof (Hlook w Hw) as HG.
    destruct (flatten_valid data w Hv Hw) as [_ Hp].
    split_and!; [done | | by apply anagram_group_self |].
    + unfold PhoneticAnagramDict_getitem, getitem in HG.
      rewrite (Pronunciation_sorted_valid isalpha_slash) in HG by done.
      destruct (dict_get _ pad) as [G|]; [|done]. by injection HG as ->.
    + intros w'. unfold anagram_group. rewrite list_elem_of_filter.
      unfold get_pronunciation_str. by split; intros [? ?].
  - unfold main. rewrite (from_file_Ok _ _ raw Hget).
    cbn [mbind result_bind]. by apply main_reports_Ok.
  - intros w Hw Hempty. specialize (Hlook w Hw).
    exists (anagram_group data w).
    destruct w as [sp [s]]. simpl in Hempty. subst s.
    unfold PhoneticAnagramDict_getitem, getitem in Hlook.
    change (Pronunciation_sorted
              (pronunciation (mkPronouncedWord sp (mkPronunciation []))))
      with (mkPronunciation []) in Hlook.
    destruct (dict_get (mkPronunciation []) pad) as [G|]; [|done].
    injection Hlook as ->.
    split_and!; [done | by apply anagram_group_self |].
    intros w'. unfold anagram_group. rewrite list_elem_of_filter.
    unfold get_pronunciation_str. simpl.
    change (sorted_str []) with (@nil N). rewrite sorted_str_nil.
    by split; intros [? ?].
Qed.

End claims.

(** * Further properties of the code *)

Section extras.
Hypothesis isalpha_slash : isalpha 47 = false.
Hypothesis isalpha_colon : isalpha 58 = false.
Hypothesis list_of_set_elem :
  ∀ (X : gset Pronunciation) p, p ∈ list_of_set X ↔ p ∈ X.
Hypothesis list_of_set_NoDup :
  ∀ X : gset Pronunciation, NoDup (list_of_set X).

(** ** Strings *)

Lemma split2_cons_cons (a b c c' : char) (rest : str) :
  split2 a b (c :: c' :: rest) =
    if bool_decide (c = a ∧ c' = b) then [] :: split2 a b rest
    else cons_head c (split2 a b (c' :: rest)).
Proof. done. Qed.

Lemma cons_head_nonempty (c : char) (parts : list str) :
  cons_head c parts ≠ [].
Proof. by destruct parts. Qed.

Lemma split2_nonempty (a b : char) (s : str) : split2 a b s ≠ [].
Proof.
  destruct s as [|c [|c' s]]; [done | done |].
  rewrite split2_cons_cons. case_bool_decide; [done|].
  apply cons_head_nonempty.
Qed.

Lemma join_cons_head (sep : str) (c : char) (parts : list str) :
  parts ≠ [] → join sep (cons_head c parts) = c :: join sep parts.
Proof. destruct parts as [|p [|q parts]]; by intros. Qed.

Lemma join_nil_cons (sep : str) (parts : list str) :
  parts ≠ [] → join sep ([] :: parts) = sep ++ join sep parts.
Proof. destruct parts; by intros. Qed.

(** X1: joining the parts of a split with the separator gives the string
    back: [', '.join(s.split(', ')) == s]. *)
Theorem join_split2 (a b : char) (s : str) :
  join [a; b] (split2 a b s) = s.
Proof.
  cut (join [a; b] (split2 a b s) = s ∧
       ∀ c, join [a; b] (split2 a b (c :: s)) = c :: s); [by intros [? _]|].
  induction s as [|x s [IH1 IH2]]; [by split|].
  split; [apply IH2|]. intros c. rewrite split2_cons_cons.
  case_bool_decide as Hsep.
  - destruct Hsep as [-> ->].
    rewrite join_nil_cons by apply split2_nonempty. by rewrite IH1.
  - rewrite join_cons_head by apply split2_nonempty. by rewrite IH2.
Qed.

Lemma lstrip_split (chars s : str) :
  ∃ pre, s = pre ++ lstrip chars s ∧ Forall (λ c, c ∈ chars) pre.
Proof.
  induction s as [|c s (pre & Hs & Hpre)]; [by exists []|].
  simpl. unfold char_in. case_bool_decide as Hc.
  - exists (c :: pre). split; [by rewrite Hs at 1 | by constructor].
  - by exists [].
Qed.

Lemma lstrip_head (chars s : str) c :
  head (lstrip chars s) = Some c → c ∉ chars.
Proof.
  induction s as [|x s IH]; [done|]. simpl. unfold char_in.
  case_bool_decide as Hx; [done|]. by intros [= <-].
Qed.

Lemma lstrip_keeps_last (chars s : str) c :
  last s = Some c → c ∉ chars → last (lstrip chars s) = Some c.
Proof.
  intros Hlast Hc. destruct (lstrip_split chars s) as (pre & Hs & Hpre).
  destruct (lstrip chars s) as [|y t] eqn:Hl.
  - rewrite app_nil_r in Hs. subst pre. rewrite Forall_forall in Hpre.
    exfalso. apply Hc, Hpre. by apply last_Some_elem_of.
  - rewrite Hs in Hlast. by rewrite last_app_cons in Hlast.
Qed.

(** X2: [strip] removes a prefix and a suffix made of the given characters
    and nothing else, and what it returns neither starts nor ends with one
    of them. *)
Theorem strip_spec (chars s : str) :
  (∃ pre suf, s = pre ++ strip chars s ++ suf ∧
     Forall (λ c, c ∈ chars) pre ∧ Forall (λ c, c ∈ chars) suf) ∧
  (∀ c, head (strip chars s) = Some c → c ∉ chars) ∧
  (∀ c, last (strip chars s) = Some c → c ∉ chars).
Proof.
  unfold strip, rstrip.
  destruct (lstrip_split chars s) as (pre & Hs & Hpre).
  destruct (lstrip_split chars (reverse (lstrip chars s)))
    as (fus & Hr & Hfus).
  split_and!.
  - exists pre, (reverse fus). split_and!; [|done | by apply Forall_reverse].
    rewrite <-reverse_app, <-Hr, reverse_involutive. done.
  - intros c Hc. rewrite head_reverse in Hc.
    assert (head (lstrip chars s) = Some c) as Hhead.
    { rewrite <-(reverse_involutive (lstrip chars s)), head_reverse.
      destruct (last (reverse (lstrip chars s))) as [d|] eqn:Hd.
      - destruct (decide (d ∈ chars)) as [Hin|Hin].
        + assert (lstrip chars (reverse (lstrip chars s)) = []) as Hnil.
          { rewrite <-head_reverse in Hd.
            rewrite reverse_involutive in Hd.
            by destruct (lstrip_head chars s d Hd). }
          by rewrite Hnil in Hc.
        + by rewrite (lstrip_keeps_last _ _ d Hd Hin) in Hc.
      - apply last_None in Hd. by rewrite Hd in Hc. }
    by apply lstrip_head in Hhead.
  - intros c Hc. rewrite last_reverse in Hc. by apply lstrip_head in Hc.
Qed.

(** ** Normalization *)

Lemma filter_lstrip (P : N → Prop) `{∀ c, Decision (P c)} (chars s : str) :
  (∀ c, c ∈ chars → ¬ P c) → filter P (lstrip chars s) = filter P s.
Proof.
  intros Hchars. induction s as [|c s IH]; [done|].
  simpl. unfold char_in. case_bool_decide as Hc; [|done].
  rewrite filter_cons_False by by apply Hchars. done.
Qed.

Lemma filter_strip (P : N → Prop) `{∀ c, Decision (P c)} (chars s : str) :
  (∀ c, c ∈ chars → ¬ P c) → filter P (strip chars s) = filter P s.
Proof.
  intros Hchars. unfold strip, rstrip.
  rewrite filter_reverse, filter_lstrip, <-filter_reverse by done.
  rewrite reverse_involutive. by apply filter_lstrip.
Qed.

(** X3: as the slash is no letter, stripping it at the ends changes nothing
    the filter would not remove: [normalize_pronunciation] and
    [clean_str_to_alphanum] agree on every string, and normalizing twice is
    normalizing once. *)
Theorem normalize_pronunciation_clean (s : str) :
  normalize_pronunciation s = clean_str_to_alphanum s ∧
  normalize_pronunciation (normalize_pronunciation s) =
    normalize_pronunciation s.
Proof.
  assert (∀ t, normalize_pronunciation t = clean_str_to_alphanum t) as Heq.
  { intros t. unfold normalize_pronunciation, clean_str_to_alphanum.
    apply filter_strip. intros c Hc. change (py "/") with [47] in Hc.
    apply list_elem_of_singleton in Hc as ->.
    unfold is_kept. rewrite isalpha_slash. simpl. by intros []. }
  split; [done|]. rewrite !Heq. apply clean_fixed, clean_kept.
Qed.

(** ** sorted_str *)

Lemma sorted_str_Sorted (s : str) : Sorted N.le (sorted_str s).
Proof. apply (Sorted_merge_sort N.le). Qed.

Lemma sorted_str_eq_Permutation (s1 s2 : str) :
  sorted_str s1 = sorted_str s2 ↔ s1 ≡ₚ s2.
Proof.
  split.
  - intros Heq. rewrite <-(sorted_str_Permutation s1), Heq.
    apply sorted_str_Permutation.
  - intros Hp. apply (Sorted_unique N.le); [apply sorted_str_Sorted..|].
    by rewrite !sorted_str_Permutation.
Qed.

(** X4: [sorted_str] returns the characters of its argument in ascending
    order, and two strings have the same sorted form exactly when they are
    anagrams (one a rearrangement of the other). *)
Theorem sorted_str_canonical (s1 s2 : str) :
  Sorted N.le (sorted_str s1) ∧
  sorted_str s1 ≡ₚ s1 ∧
  (sorted_str s1 = sorted_str s2 ↔ s1 ≡ₚ s2).
Proof.
  split_and!; [apply sorted_str_Sorted | apply sorted_str_Permutation
              | apply sorted_str_eq_Permutation].
Qed.

(** ** Anagram tests *)

(** X5: two spellings are anagrams of each other exactly when their
    normalized strings are rearrangements of one another; the test is
    reflexive and symmetric. *)
Theorem Spelling_is_anagram_of_spec (x y : str) :
  (Spelling_is_anagram_of (new_Spelling x) (new_Spelling y) = true ↔
     clean_str_to_alphanum x ≡ₚ clean_str_to_alphanum y) ∧
  Spelling_is_anagram_of (new_Spelling x) (new_Spelling x) = true ∧
  Spelling_is_anagram_of (new_Spelling x) (new_Spelling y) =
    Spelling_is_anagram_of (new_Spelling y) (new_Spelling x).
Proof.
  split_and!.
  - unfold Spelling_is_anagram_of, Spelling_sorted, new_Spelling.
    cbn [Spelling_s]. rewrite bool_decide_eq_true.
    rewrite !(clean_fixed (sorted_str _))
      by apply sorted_str_kept, clean_kept.
    rewrite <-sorted_str_eq_Permutation. split; [by intros [= ->] | by intros ->].
  - unfold Spelling_is_anagram_of. by apply bool_decide_eq_true.
  - unfold Spelling_is_anagram_of. apply bool_decide_ext. by split.
Qed.

(** X6: two pronunciations are anagrams of each other exactly when their
    normalized strings are rearrangements of one another; the test is
    reflexive and symmetric, and [is_phonetic_anagram_of] on words is this
    test on their pronunciations. *)
Theorem Pronunciation_is_anagram_of_spec (x y : str) :
  (Pronunciation_is_anagram_of (new_Pronunciation x) (new_Pronunciation y)
     = true ↔
     normalize_pronunciation x ≡ₚ normalize_pronunciation y) ∧
  Pronunciation_is_anagram_of (new_Pronunciation x) (new_Pronunciation x)
    = true ∧
  Pronunciation_is_anagram_of (new_Pronunciation x) (new_Pronunciation y) =
    Pronunciation_is_anagram_of (new_Pronunciation y) (new_Pronunciation x) ∧
  ∀ sx sy,
    is_phonetic_anagram_of
      (mkPronouncedWord sx (new_Pronunciation x))
      (mkPronouncedWord sy (new_Pronunciation y)) =
    Pronunciation_is_anagram_of (new_Pronunciation x) (new_Pronunciation y).
Proof.
  split_and!.
  - unfold Pronunciation_is_anagram_of. rewrite bool_decide_eq_true.
    rewrite !(Pronunciation_sorted_valid isalpha_slash) by by eexists.
    cbn [new_Pronunciation Pronunciation_s].
    rewrite <-sorted_str_eq_Permutation.
    split; [by intros [= ->] | by intros ->].
  - unfold Pronunciation_is_anagram_of. by apply bool_decide_eq_true.
  - unfold Pronunciation_is_anagram_of. apply bool_decide_ext. by split.
  - done.
Qed.

(** ** deduplicate_pronunciations *)

Lemma deduplicate_loop_prons words (seen : gset Pronunciation) unique :
  (∀ p, p ∈ seen ↔ p ∈ pronunciation <$> unique) →
  ∀ p, p ∈ pronunciation <$> deduplicate_loop words seen unique ↔
       p ∈ pronunciation <$> unique ∨ p ∈ pronunciation <$> words.
Proof.
  revert seen unique.
  induction words as [|word rest IH]; intros seen unique Hseen p.
  - cbn [deduplicate_loop]. rewrite fmap_nil, elem_of_nil. tauto.
  - cbn [deduplicate_loop]. rewrite fmap_cons, elem_of_cons.
    destruct (decide (pronunciation word ∈ seen)) as [Hin|Hin].
    + rewrite IH by done. apply Hseen in Hin. split; [tauto|].
      intros [?|[->|?]]; tauto.
    + rewrite IH.
      * rewrite fmap_app, elem_of_app. simpl.
        rewrite list_elem_of_singleton. tauto.
      * intros q. rewrite elem_of_union, elem_of_singleton, Hseen.
        rewrite fmap_app, elem_of_app. simpl.
        rewrite list_elem_of_singleton. tauto.
Qed.

Lemma deduplicate_loop_fresh words (seen : gset Pronunciation) unique :
  NoDup (pronunciation <$> words) →
  (∀ w, w ∈ words → pronunciation w ∉ seen) →
  deduplicate_loop words seen unique = unique ++ words.
Proof.
  revert seen unique.
  induction words as [|word rest IH]; intros seen unique Hnd Hfresh.
  - simpl. by rewrite app_nil_r.
  - cbn [deduplicate_loop]. rewrite fmap_cons in Hnd.
    apply NoDup_cons in Hnd as [Hword Hnd].
    rewrite decide_False by (apply Hfresh; left).
    rewrite IH; [by rewrite <-app_assoc | done |].
    intros w Hw. rewrite elem_of_union, elem_of_singleton.
    intros [Heq|Hin].
    + apply Hword. rewrite <-Heq. apply list_elem_of_fmap. by exists w.
    + apply (Hfresh w); [by right | done].
Qed.

(** X7: [deduplicate_pronunciations] leaves a list unchanged exactly when
    no two of its words share a pronunciation; applying it twice is applying
    it once. *)
Theorem deduplicate_pronunciations_fixed (words : list PronouncedWord) :
  (deduplicate_pronunciations words = words ↔
     NoDup (pronunciation <$> words)) ∧
  deduplicate_pronunciations (deduplicate_pronunciations words) =
    deduplicate_pronunciations words.
Proof.
  assert (∀ l, NoDup (pronunciation <$> l) →
               deduplicate_pronunciations l = l) as Hfix.
  { intros l Hnd. unfold deduplicate_pronunciations.
    rewrite deduplicate_loop_fresh; [done | done |].
    intros w _. apply not_elem_of_empty. }
  split; [split|].
  - intros Heq. rewrite <-Heq. apply deduplicate_NoDup.
  - apply Hfix.
  - apply Hfix, deduplicate_NoDup.
Qed.

(** X8: [deduplicate_pronunciations] loses no pronunciation: the result has
    the pronunciations of the input, is never longer, and starts with the
    first word of the input. *)
Theorem deduplicate_pronunciations_keeps (words : list PronouncedWord) :
  (∀ p, p ∈ pronunciation <$> deduplicate_pronunciations words ↔
        p ∈ pronunciation <$> words) ∧
  (length (deduplicate_pronunciations words) ≤ length words)%nat ∧
  head (deduplicate_pronunciations words) = head words.
Proof.
  split_and!.
  - intros p. unfold deduplicate_pronunciations.
    rewrite deduplicate_loop_prons.
    + rewrite fmap_nil, elem_of_nil. tauto.
    + intros q. rewrite fmap_nil, elem_of_nil.
      split; [by intros ?%not_elem_of_empty | done].
  - apply sublist_length, deduplicate_sublist.
  - destruct words as [|w rest]; [done|].
    unfold deduplicate_pronunciations. cbn [deduplicate_loop].
    rewrite decide_False by apply not_elem_of_empty.
    rewrite (deduplicate_loop_first rest _ _ [w]); [done|].
    intros p. rewrite elem_of_union, elem_of_singleton. simpl.
    rewrite list_elem_of_singleton.
    split; [intros [?|?%not_elem_of_empty]; done | by left].
Qed.

(** ** IPADict *)

Lemma from_file_entries_Ok_inv (items : list (str * json)) entries :
  from_file_entries items = Ok entries →
  ∃ raw : list (str * str), items = prod_map id JStr <$> raw.
Proof.
  revert entries. induction items as [|[k v] items IH]; intros entries Hok.
  - by exists [].
  - cbn [from_file_entries] in Hok. destruct v; try done.
    cbn [json_split mbind result_bind] in Hok.
    destruct (from_file_entries items) as [rest|] eqn:Hrest; [|done].
    destruct (IH rest eq_refl) as [raw ->]. by exists ((k, s) :: raw).
Qed.

Lemma from_file_Ok_inv (doc : json) (language : str) data :
  from_file doc language = Ok data →
  ∃ top (raw : list (str * str)),
    doc = JObj top ∧
    dict_get language top = Some (JArr [JObj (prod_map id JStr <$> raw)]) ∧
    data = dict_of_items (from_file_entry <$> raw).
Proof.
  unfold from_file, json_subscript, getitem. intros Hok.
  destruct doc as [| | | | | |top]; try done.
  destruct (dict_get language top) as [value|] eqn:Hget; [|done].
  cbn [mbind result_bind] in Hok.
  assert (∃ items, value = JArr [JObj items]) as [items ->].
  { destruct value as [| | | |s|l|l]; try done.
    - by destruct s as [|? [|? ?]].
    - destruct l as [|d [|? ?]]; try done. destruct d; try done.
      by eexists.
    - by destruct l as [|[? ?] [|? ?]]. }
  cbn [unpack_single mbind result_bind json_items] in Hok.
  destruct (from_file_entries items) as [entries|] eqn:Hentries; [|done].
  destruct (from_file_entries_Ok_inv _ _ Hentries) as [raw ->].
  rewrite from_file_entries_Ok in Hentries. injection Hentries as <-.
  cbn [mbind result_bind] in Hok. injection Hok as <-.
  by exists top, raw.
Qed.

(** X9: [from_file] returns a dictionary exactly for a document that is
    an object holding, under the language, a one-element array with an
    object whose values are all strings; on every other document it
    raises. *)
Theorem from_file_Ok_iff (doc : json) (language : str) data :
  from_file doc language = Ok data ↔
  ∃ top (raw : list (str * str)),
    doc = JObj top ∧
    dict_get language top = Some (JArr [JObj (prod_map id JStr <$> raw)]) ∧
    data = dict_of_items (from_file_entry <$> raw).
Proof.
  split; [apply from_file_Ok_inv|].
  intros (top & raw & -> & Hget & ->). by apply from_file_Ok.
Qed.

Lemma list_bind_singleton {A B} (f : A → B) (l : list A) :
  (l ≫= λ x, [f x]) = f <$> l.
Proof. induction l as [|x l IH]; [done|]. by rewrite fmap_cons, <-IH. Qed.

Lemma flatten_cons sp ps data :
  flatten_to_pronounced_words ((sp, ps) :: data) =
    (mkPronouncedWord sp <$> ps) ++ flatten_to_pronounced_words data.
Proof.
  unfold flatten_to_pronounced_words. cbn [mbind list_bind].
  by rewrite list_bind_singleton.
Qed.

Lemma flatten_NoDup data :
  NoDup data.*1 → Forall (λ e, NoDup e.2) data →
  NoDup (flatten_to_pronounced_words data).
Proof.
  induction data as [|[sp ps] data IH]; intros Hkeys Hlists.
  - constructor.
  - rewrite flatten_cons. rewrite fmap_cons in Hkeys.
    apply NoDup_cons in Hkeys as [Hsp Hkeys].
    apply Forall_cons in Hlists as [Hps Hlists]. cbn [snd] in Hps.
    apply NoDup_app. split_and!.
    + apply NoDup_fmap_2; [|done]. by intros p1 p2 [= ->].
    + intros w (p & -> & Hp)%list_elem_of_fmap
               (ps' & He & _)%elem_of_flatten.
      apply Hsp. apply list_elem_of_fmap. by exists (sp, ps').
    + by apply IH.
Qed.

(** X10: a dictionary [from_file] returns has each spelling once, holds
    only normalized values, gives every spelling at least one pronunciation
    and none twice; flattening it yields no word twice. *)
Theorem from_file_invariants (doc : json) (language : str) data :
  from_file doc language = Ok data →
  NoDup data.*1 ∧
  IPADict_valid data ∧
  Forall (λ e, e.2 ≠ [] ∧ NoDup e.2) data ∧
  NoDup (flatten_to_pronounced_words data).
Proof.
  intros (top & raw & -> & _ & ->)%from_file_Ok_inv.
  assert (Forall (λ e : Spelling * list Pronunciation, e.2 ≠ [] ∧ NoDup e.2)
            (dict_of_items (from_file_entry <$> raw))) as Hlists.
  { apply Forall_forall. intros [sp ps] Hin.
    apply dict_of_items_elem, list_elem_of_fmap in Hin as (kv & [= -> ->] & _).
    unfold from_file_entry. cbn [snd].
    split; [|apply list_of_set_NoDup]. intros Hnil.
    pose proof (split2_nonempty 44 32 kv.2) as Hne.
    destruct (split2 44 32 kv.2) as [|part parts]; [done|].
    assert (new_Pronunciation part ∈
              list_of_set (list_to_set (new_Pronunciation <$> part :: parts)))
      as Hin by (apply list_of_set_elem, elem_of_list_to_set; left).
    rewrite Hnil in Hin. by apply elem_of_nil in Hin. }
  split_and!.
  - apply dict_of_items_NoDup.
  - apply (from_file_valid list_of_set_elem).
  - done.
  - apply flatten_NoDup; [apply dict_of_items_NoDup|].
    eapply Forall_impl; [exact Hlists|]. by intros e [_ ?].
Qed.

(** ** find_anagrams *)

Lemma find_anagrams_Ok_inv {T : Type} `{IsInstanceStr T}
    (items : list T) (key : option (T → str)) r :
  find_anagrams items key = Ok r →
  Forall (λ w, ∃ s, key_source key w = Ok s) items ∧
  r = dict_of_items
        (prod_map new_Pronunciation id <$> grouped (sorted_key key) items).
Proof.
  intros Hr.
  destruct (Forall_or_Exists
    (λ w, ∃ s, key_source key w = Ok s)
    (λ w, key_source key w = Raise TypeError ∧ key = None ∧
          isinstance_str w = None)
    items (key_source_cases key)) as [Hall|Hex].
  - split; [done|]. rewrite (find_anagrams_Ok _ _ Hall) in Hr. by injection Hr.
  - rewrite find_anagrams_Raise in Hr; [done|].
    eapply Exists_impl; [exact Hex|]. by intros w [? _].
Qed.

Lemma grouped_elem {K T : Type} `{EqDecision K} (f : T → K) items k l :
  (k, l) ∈ grouped f items →
  l = filter (λ w, f w = k) items ∧ l ≠ [].
Proof.
  intros Hin. apply dict_get_NoDup in Hin; [|apply grouped_NoDup].
  rewrite grouped_get in Hin.
  destruct (filter (λ w, f w = k) items) as [|w l']; [done|].
  injection Hin as <-. done.
Qed.

Lemma find_anagrams_group_inv {T : Type} `{IsInstanceStr T}
    (items : list T) (key : option (T → str)) r K l :
  find_anagrams items key = Ok r → (K, l) ∈ r →
  ∃ k, K = new_Pronunciation k ∧
       l = filter (λ w, sorted_key key w = k) items ∧ l ≠ [].
Proof.
  intros [_ ->]%find_anagrams_Ok_inv Hin.
  apply dict_of_items_elem, list_elem_of_fmap in Hin
    as ([k l0] & [= -> ->] & Hkl).
  exists k. split; [done|]. by apply grouped_elem.
Qed.

(** X11: in the mapping [find_anagrams] returns no key occurs twice, no
    group is empty, every group lists items of the input in their input
    order, and the key of a group is the wrapped sorted key string of each
    of its items. *)
Theorem find_anagrams_groups {T : Type} `{IsInstanceStr T}
    (items : list T) (key : option (T → str)) r :
  find_anagrams items key = Ok r →
  NoDup r.*1 ∧
  ∀ K l, (K, l) ∈ r →
    l ≠ [] ∧ l `sublist_of` items ∧
    ∀ w, w ∈ l →
      ∃ s, key_source key w = Ok s ∧ new_Pronunciation (sorted_str s) = K.
Proof.
  intros Hr. split.
  - apply find_anagrams_Ok_inv in Hr as [_ ->]. apply dict_of_items_NoDup.
  - intros K l Hin.
    destruct (find_anagrams_group_inv _ _ _ _ _ Hr Hin) as (k & -> & -> & Hne).
    split_and!; [done | apply sublist_filter |].
    intros w [Hk Hw]%list_elem_of_filter.
    apply find_anagrams_Ok_inv in Hr as [Hall _].
    rewrite Forall_forall in Hall. destruct (Hall w Hw) as [s Hs].
    exists s. split; [done|]. rewrite <-Hk. unfold sorted_key.
    by rewrite Hs.
Qed.

(** X12: when wrapping keeps the sorted keys apart, two items of the input
    are in a common group exactly when their key strings are anagrams of
    each other. *)
Theorem find_anagrams_same_group {T : Type} `{IsInstanceStr T}
    (items : list T) (key : option (T → str)) r (w1 w2 : T) (s1 s2 : str) :
  find_anagrams items key = Ok r →
  wrap_injective key items →
  w1 ∈ items → w2 ∈ items →
  key_source key w1 = Ok s1 → key_source key w2 = Ok s2 →
  (∃ K l, (K, l) ∈ r ∧ w1 ∈ l ∧ w2 ∈ l) ↔ s1 ≡ₚ s2.
Proof.
  intros Hr Hinj Hw1 Hw2 Hs1 Hs2.
  assert (sorted_key key w1 = sorted_str s1) as Hk1
    by (unfold sorted_key; by rewrite Hs1).
  assert (sorted_key key w2 = sorted_str s2) as Hk2
    by (unfold sorted_key; by rewrite Hs2).
  rewrite <-sorted_str_eq_Permutation, <-Hk1, <-Hk2. split.
  - intros (K & l & Hin & Hl1 & Hl2).
    destruct (find_anagrams_group_inv _ _ _ _ _ Hr Hin) as (k & _ & -> & _).
    apply list_elem_of_filter in Hl1 as [-> _].
    by apply list_elem_of_filter in Hl2 as [-> _].
  - intros Heq.
    pose proof Hr as [Hall _]%find_anagrams_Ok_inv.
    destruct (find_anagrams_get items key w1 Hall Hinj Hw1)
      as (r' & Hr' & Hget).
    rewrite Hr in Hr'. injection Hr' as <-.
    apply dict_get_Some_elem in Hget.
    eexists _, _. split; [exact Hget|].
    split; apply list_elem_of_filter; by split.
Qed.

(** ** PhoneticAnagramDict *)

(** X13: a lookup depends on its query only through the letters of the
    normalized query: string queries whose normalized forms are anagrams of
    each other get the same answer from any index, and a string gets the
    answer of the [Pronunciation] built from it. *)
Theorem getitem_anagram_queries
    (self : list (Pronunciation * list PronouncedWord)) (s1 s2 : str) :
  normalize_pronunciation s1 ≡ₚ normalize_pronunciation s2 →
  PhoneticAnagramDict_getitem self (inl s1) =
    PhoneticAnagramDict_getitem self (inl s2) ∧
  PhoneticAnagramDict_getitem self (inl s1) =
    PhoneticAnagramDict_getitem self (inr (new_Pronunciation s2)).
Proof.
  intros Hp%sorted_str_eq_Permutation.
  unfold PhoneticAnagramDict_getitem, Pronunciation_sorted, new_Pronunciation.
  cbn [Pronunciation_s]. by rewrite Hp.
Qed.

(** X14: the index built from a dictionary answers a query with the words
    of the dictionary, in flattening order, whose pronunciation has the
    letters of the query, and raises [KeyError] when there is none. *)
Theorem getitem_result data (p : Pronunciation) :
  IPADict_valid data → Pronunciation_valid p →
  ∃ pad, from_IPADict data = Ok pad ∧
    PhoneticAnagramDict_getitem pad (inr p) =
      match filter (λ w, sorted_str (Pronunciation_s (pronunciation w)) =
                           sorted_str (Pronunciation_s p))
              (flatten_to_pronounced_words data) with
      | [] => Raise KeyError
      | G => Ok G
      end.
Proof.
  intros Hv Hp. unfold from_IPADict.
  rewrite (find_anagrams_Ok _ _ (flatten_key_sources data)).
  eexists. split; [done|].
  rewrite dict_of_items_fresh
    by apply wrap_injective_NoDup, (flatten_wrap_injective isalpha_slash), Hv.
  unfold PhoneticAnagramDict_getitem, getitem.
  rewrite (Pronunciation_sorted_valid isalpha_slash) by done.
  assert (∀ s, Forall (λ c, is_kept c) s →
            mkPronunciation (sorted_str s) = new_Pronunciation (sorted_str s))
    as Hwrap.
  { intros s Hs. unfold new_Pronunciation.
    by rewrite (normalize_fixed isalpha_slash) by by apply sorted_str_kept. }
  rewrite Hwrap by by apply Pronunciation_valid_kept.
  rewrite dict_get_fmap_key.
  - rewrite grouped_get.
    by destruct (filter _ (flatten_to_pronounced_words data)).
  - intros k' (w & Hw & <-)%grouped_keys.
    change (sorted_key (Some get_pronunciation_str) w)
      with (sorted_str (Pronunciation_s (pronunciation w))).
    destruct (flatten_valid data w Hv Hw) as [_ Hpw].
    rewrite <-!Hwrap by by apply Pronunciation_valid_kept.
    by intros [= ->].
Qed.

(** ** main *)

Lemma from_file_Ok_valid (doc : json) (language : str) data :
  from_file doc language = Ok data → IPADict_valid data.
Proof.
  intros (top & raw & _ & _ & ->)%from_file_Ok_inv.
  apply (from_file_valid list_of_set_elem).
Qed.

(** X15: [main] raises exactly when loading the dictionary raises, and
    then the same error: on a loaded dictionary the index is built, every
    lookup in the report loop succeeds and the three reports are
    produced. *)
Theorem main_raises_iff (doc : json) (e : exn) :
  main doc = Raise e ↔ from_file doc (py "en_US") = Raise e.
Proof.
  unfold main. destruct (from_file doc (py "en_US")) as [data|e'] eqn:Hload.
  - cbn [mbind result_bind].
    rewrite (main_reports_Ok isalpha_slash)
      by by apply (from_file_Ok_valid doc (py "en_US")).
    done.
  - simpl. split; by intros [= ->].
Qed.

Lemma report_keys_NoDup data dedup words :
  (∀ w, w ∈ words → Spelling_valid (spelling w)) →
  NoDup words →
  NoDup (report_entry data dedup <$> words).*1.
Proof.
  intros Hvalid Hnd. rewrite <-list_fmap_compose.
  apply NoDup_fmap_2_strong; [|done].
  intros w1 w2 Hw1 Hw2 Heq. apply (json_safe_str_inj isalpha_colon); auto.
Qed.

(** X16: for a loaded dictionary each report has its entries in the order
    of the flattened words, one per word: Report A and Report B hold an
    entry for every word, Report C for the words whose deduplicated group
    has more than one member. *)
Theorem main_reports_in_order (doc : json) data :
  from_file doc (py "en_US") = Ok data →
  main doc =
    Ok (mkReports
          (report_entry data false <$> flatten_to_pronounced_words data)
          (report_entry data true <$> flatten_to_pronounced_words data)
          (report_entry data true <$>
             filter (λ w, nontrivial data w)
               (flatten_to_pronounced_words data))).
Proof.
  intros Hload. unfold main. rewrite Hload. cbn [mbind result_bind].
  pose proof (from_file_Ok_valid _ _ _ Hload) as Hv.
  rewrite (main_reports_Ok isalpha_slash) by done.
  assert (NoDup (flatten_to_pronounced_words data)) as Hnd.
  { apply from_file_Ok_inv in Hload as (top & raw & _ & _ & ->).
    apply flatten_NoDup; [apply dict_of_items_NoDup|].
    apply Forall_forall. intros [sp ps] Hin.
    apply dict_of_items_elem, list_elem_of_fmap in Hin
      as (kv & [= -> ->] & _).
    apply list_of_set_NoDup. }
  pose proof (flatten_spelling_valid data Hv) as Hsp.
  unfold reports_of.
  rewrite !dict_of_items_fresh; [done | | |].
  - apply report_keys_NoDup; [|by apply NoDup_filter].
    intros w [_ Hw]%list_elem_of_filter. by apply Hsp.
  - by apply report_keys_NoDup.
  - by apply report_keys_NoDup.
Qed.

Lemma anagram_group_eq data w1 w2 :
  sorted_str (get_pronunciation_str w1) =
    sorted_str (get_pronunciation_str w2) →
  anagram_group data w1 = anagram_group data w2.
Proof. intros Heq. unfold anagram_group. by rewrite Heq. Qed.

(** X17: two words of the dictionary that are phonetic anagrams of each
    other get the same value in Report A and the same value in Report B,
    and the group joined in their Report A value contains them both. *)
Theorem anagrams_share_report_values data w1 w2 :
  IPADict_valid data →
  w1 ∈ flatten_to_pronounced_words data →
  w2 ∈ flatten_to_pronounced_words data →
  is_phonetic_anagram_of w1 w2 = true →
  ∃ R G,
    main_reports data = Ok R ∧
    w1 ∈ G ∧ w2 ∈ G ∧
    dict_get (json_safe_str w1) (anaphones R) = Some (joined G) ∧
    dict_get (json_safe_str w2) (anaphones R) = Some (joined G) ∧
    dict_get (json_safe_str w1) (anaphones_unique_pronunciation R) =
      Some (joined (deduplicate_pronunciations G)) ∧
    dict_get (json_safe_str w2) (anaphones_unique_pronunciation R) =
      Some (joined (deduplicate_pronunciations G)).
Proof.
  intros Hv Hw1 Hw2 Hana.
  destruct (flatten_valid data w1 Hv Hw1) as [_ Hp1].
  destruct (flatten_valid data w2 Hv Hw2) as [_ Hp2].
  assert (sorted_str (get_pronunciation_str w1) =
            sorted_str (get_pronunciation_str w2)) as Heq.
  { unfold is_phonetic_anagram_of, Pronunciation_is_anagram_of in Hana.
    apply bool_decide_eq_true in Hana.
    rewrite !(Pronunciation_sorted_valid isalpha_slash) in Hana by done.
    by injection Hana. }
  pose proof (anagram_group_eq data w1 w2 Heq) as HG.
  pose proof (flatten_spelling_valid data Hv) as Hsp.
  pose proof (json_safe_str_inj isalpha_colon) as Hinj.
  exists (reports_of data), (anagram_group data w1).
  split_and!.
  - by apply main_reports_Ok.
  - by apply anagram_group_self.
  - rewrite HG. by apply anagram_group_self.
  - by apply (report_get data false).
  - rewrite HG. by apply (report_get data false).
  - by apply (report_get data true).
  - rewrite HG. by apply (report_get data true).
Qed.

(** X18: the composite key identifies the word: two words with spellings
    built by the constructor and equal [json_safe_str] are the same
    word. *)
Theorem json_safe_str_injective (x1 x2 : str) (p1 p2 : Pronunciation) :
  json_safe_str (mkPronouncedWord (new_Spelling x1) p1) =
    json_safe_str (mkPronouncedWord (new_Spelling x2) p2) →
  new_Spelling x1 = new_Spelling x2 ∧ p1 = p2.
Proof.
  intros Heq. apply (json_safe_str_inj isalpha_colon) in Heq.
  - split; [exact (f_equal spelling Heq) | exact (f_equal pronunciation Heq)].
  - by eexists.
  - by eexists.
Qed.

(** ** Report values *)

Lemma split2_no_sep (a b : char) (p : str) : a ∉ p → split2 a b p = [p].
Proof.
  induction p as [|c p IH]; [done|].
  intros [Hc Hp]%not_elem_of_cons. destruct p as [|c' p]; [done|].
  rewrite split2_cons_cons, bool_decide_eq_false_2 by (by intros [-> _]).
  by rewrite IH.
Qed.

Lemma split2_app_sep (a b : char) (p s : str) :
  a ∉ p → split2 a b (p ++ a :: b :: s) = p :: split2 a b s.
Proof.
  induction p as [|c p IH].
  - intros _. cbn [app]. rewrite split2_cons_cons.
    by rewrite bool_decide_eq_true_2.
  - intros [Hc Hp]%not_elem_of_cons. destruct p as [|c' p].
    + cbn [app]. rewrite split2_cons_cons.
      rewrite bool_decide_eq_false_2 by (by intros [-> _]).
      rewrite split2_cons_cons. by rewrite bool_decide_eq_true_2.
    + cbn [app] in *. rewrite split2_cons_cons.
      rewrite bool_decide_eq_false_2 by (by intros [-> _]).
      by rewrite IH.
Qed.

Lemma split2_join (a b : char) (parts : list str) :
  parts ≠ [] → Forall (λ p, a ∉ p) parts →
  split2 a b (join [a; b] parts) = parts.
Proof.
  induction parts as [|p parts IH]; [done|]. intros _ Hparts.
  apply Forall_cons in Hparts as [Hp Hparts].
  destruct parts as [|q parts].
  - by apply split2_no_sep.
  - change (join [a; b] (p :: q :: parts))
      with (p ++ a :: b :: join [a; b] (q :: parts)).
    rewrite split2_app_sep by done. by rewrite IH.
Qed.

Section comma.
(** The comma of the report separator is punctuation as well. *)
Hypothesis isalpha_comma : isalpha 44 = false.

Lemma kept_not_comma (s : str) : Forall (λ c, is_kept c) s → 44 ∉ s.
Proof.
  intros Hs Hin. rewrite Forall_forall in Hs. specialize (Hs _ Hin).
  unfold is_kept in Hs. by rewrite isalpha_comma in Hs.
Qed.

Lemma json_safe_str_no_comma w :
  Spelling_valid (spelling w) → Pronunciation_valid (pronunciation w) →
  44 ∉ json_safe_str w.
Proof.
  intros Hs%Spelling_valid_kept%kept_not_comma
         Hp%Pronunciation_valid_kept%kept_not_comma.
  unfold json_safe_str. change (py ":") with [58].
  rewrite !elem_of_app, list_elem_of_singleton. by intros [?|[?|?]].
Qed.

(** X19: the value of a word in Report A splits at the separator back into
    the composite keys of its anagram group, which holds the word itself
    and exactly the words of the dictionary that are its phonetic anagrams;
    its value in Report B splits into the keys of the deduplicated group. *)
Theorem report_values_split data w :
  IPADict_valid data →
  w ∈ flatten_to_pronounced_words data →
  ∃ R G va vb,
    main_reports data = Ok R ∧
    dict_get (json_safe_str w) (anaphones R) = Some va ∧
    dict_get (json_safe_str w) (anaphones_unique_pronunciation R) = Some vb ∧
    split2 44 32 va = json_safe_str <$> G ∧
    split2 44 32 vb = json_safe_str <$> deduplicate_pronunciations G ∧
    w ∈ G ∧
    ∀ w', w' ∈ G ↔
      w' ∈ flatten_to_pronounced_words data ∧
      is_phonetic_anagram_of w w' = true.
Proof.
  intros Hv Hw.
  pose proof (flatten_spelling_valid data Hv) as Hsp.
  pose proof (json_safe_str_inj isalpha_colon) as Hinj.
  assert (∀ l, l ⊆ flatten_to_pronounced_words data → l ≠ [] →
            split2 44 32 (joined l) = json_safe_str <$> l) as Hsplit.
  { intros l Hl Hne. unfold joined. change (py ", ") with [44; 32].
    apply split2_join; [by destruct l|].
    apply Forall_fmap, Forall_forall. intros w' Hw'%Hl.
    destruct (flatten_valid data w' Hv Hw'). by apply json_safe_str_no_comma. }
  pose proof (anagram_group_self data w Hw) as Hself.
  exists (reports_of data), (anagram_group data w),
    (joined (anagram_group data w)),
    (joined (deduplicate_pronunciations (anagram_group data w))).
  split_and!.
  - by apply main_reports_Ok.
  - by apply (report_get data false).
  - by apply (report_get data true).
  - apply Hsplit; [apply list_subseteq_filter|].
    intros Hnil. rewrite Hnil in Hself. by apply elem_of_nil in Hself.
  - apply Hsplit.
    + etrans; [apply sublist_subseteq, deduplicate_sublist|].
      apply list_subseteq_filter.
    + intros Hnil.
      pose proof (deduplicate_loop_prons (anagram_group data w) ∅ []) as Hp.
      assert (pronunciation w ∈
                pronunciation <$>
                  deduplicate_pronunciations (anagram_group data w)) as Hin.
      { apply Hp.
        - intros q. rewrite fmap_nil, elem_of_nil.
          split; [by intros ?%not_elem_of_empty | done].
        - right. apply list_elem_of_fmap. by exists w. }
      rewrite Hnil in Hin. by apply elem_of_nil in Hin.
  - done.
  - intros w'. unfold anagram_group. rewrite list_elem_of_filter.
    split.
    + intros [Heq Hw']. split; [done|].
      destruct (flatten_valid data w Hv Hw) as [_ Hp].
      destruct (flatten_valid data w' Hv Hw') as [_ Hp'].
      unfold is_phonetic_anagram_of, Pronunciation_is_anagram_of.
      apply bool_decide_eq_true.
      rewrite !(Pronunciation_sorted_valid isalpha_slash) by done.
      unfold get_pronunciation_str in Heq. by rewrite Heq.
    + intros [Hw' Hana]. split; [|done].
      destruct (flatten_valid data w Hv Hw) as [_ Hp].
      destruct (flatten_valid data w' Hv Hw') as [_ Hp'].
      unfold is_phonetic_anagram_of, Pronunciation_is_anagram_of in Hana.
      apply bool_decide_eq_true in Hana.
      rewrite !(Pronunciation_sorted_valid isalpha_slash) in Hana by done.
      unfold get_pronunciation_str. by injection Hana.
Qed.

End comma.

End extras.

End Anaphones.

(** * The claims on concrete inputs *)

Lemma isalpha_u02ff_slash : isalpha_u02ff 47 = false.
Proof. reflexivity. Qed.

Lemma isalpha_u02ff_colon : isalpha_u02ff 58 = false.
Proof. reflexivity. Qed.

Lemma elements_elem (X : gset Pronunciation) p : p ∈ elements X ↔ p ∈ X.
Proof. apply elem_of_elements. Qed.

Lemma sample_data_valid : IPADict_valid isalpha_u02ff sample_data.
Proof.
  unfold IPADict_valid, sample_data.
  repeat first
    [ apply Forall_nil_2 | apply Forall_cons_2 | split
    | progress cbn [fst snd]
    | match goal with
      | |- Spelling_valid _ (mkSpelling ?l) => by exists l
      | |- Pronunciation_valid _ (mkPronunciation ?l) => by exists l
      end ].
Qed.

Lemma sample_word_flattened :
  sample_word ∈ flatten_to_pronounced_words sample_data.
Proof. left. Qed.



(** C5, as stated, fails: called on its own, [find_anagrams] returns a key
    that is a [Pronunciation], and its string [a] is not the sorted key
    string [/a] of the item. *)
Lemma find_anagrams_key_is_wrapped :
  find_anagrams isalpha_u02ff [py "/a"] None =
    Ok [(mkPronunciation (py "a"), [py "/a"])] ∧
  sorted_str (py "/a") = py "/a" ∧
  Pronunciation_s (mkPronunciation (py "a")) ≠ sorted_str (py "/a").
Proof. split_and!; [by vm_compute | by vm_compute | by vm_compute]. Qed.

Lemma find_anagrams_wraps_keys_witness :
  mkPronunciation (py "a") ∈ [(mkPronunciation (py "a"), [py "/a"])].*1 ↔
    ∃ w s, w ∈ [py "/a"] ∧ key_source None w = Ok s ∧
      mkPronunciation (py "a") =
        new_Pronunciation isalpha_u02ff (sorted_str s).
Proof.
  apply (proj2 (find_anagrams_wraps_keys isalpha_u02ff) _ _ [py "/a"] None).
  by vm_compute.
Defined.

Lemma find_anagrams_TypeError_witness :
  find_anagrams isalpha_u02ff [PyStr (py "a"); PyInt 3] None = Raise TypeError.
Proof.
  apply (proj1 (find_anagrams_TypeError isalpha_u02ff _ None)).
  split; [done|]. exists (PyInt 3). split; [right; left | done].
Defined.

Lemma lookup_self_membership_witness :
  ∃ pad G,
    from_IPADict isalpha_u02ff sample_data = Ok pad ∧
    PhoneticAnagramDict_getitem isalpha_u02ff pad
      (inr (pronunciation sample_word)) = Ok G ∧
    sample_word ∈ G.
Proof.
  destruct (lookup_self_membership isalpha_u02ff
              isalpha_u02ff_slash isalpha_u02ff_colon
              sample_data sample_word
              sample_data_valid sample_word_flattened)
    as (pad & G & R & Hpad & _ & HG & Hin & _).
  by exists pad, G.
Defined.

Lemma report_B_first_occurrences_witness :
  ∃ G R,
    main_reports isalpha_u02ff sample_data = Ok R ∧
    dict_get (json_safe_str sample_word) (anaphones_unique_pronunciation R) =
      Some (joined (deduplicate_pronunciations G)) ∧
    deduplicate_pronunciations G = first_occurrences G ∧
    NoDup (pronunciation <$> deduplicate_pronunciations G).
Proof.
  destruct (report_B_first_occurrences isalpha_u02ff
              isalpha_u02ff_slash isalpha_u02ff_colon
              sample_data sample_word
              sample_data_valid sample_word_flattened)
    as (pad & G & R & _ & _ & HR & _ & HB & Hfirst & _ & _ & Hnd).
  by exists G, R.
Defined.

Lemma report_C_restricts_report_B_witness :
  ∃ R,
    main_reports isalpha_u02ff sample_data = Ok R ∧
    ∀ k v,
      dict_get k (anaphones_nontrivial_unique_pronunciation R) = Some v →
      dict_get k (anaphones_unique_pronunciation R) = Some v.
Proof.
  destruct (report_C_restricts_report_B isalpha_u02ff
              isalpha_u02ff_slash isalpha_u02ff_colon
              sample_data sample_data_valid)
    as (pad & R & _ & HR & HC).
  exists R. split; [done|]. intros k v Hk. by apply HC in Hk as [? _].
Defined.

Lemma from_file_errors_witness :
  ∃ e, from_file isalpha_u02ff elements (JObj bare_object_top) (py "en_US")
         = Raise e ∧ is_FormatError e.
Proof.
  apply (proj1 (proj2 (from_file_errors isalpha_u02ff elements
                         bare_object_top (py "en_US")))
           (JObj [(py "race", JStr (py "/reis/"))])).
  - reflexivity.
  - intros d. discriminate.
Defined.

Lemma from_file_spelling_collision_witness :
  ∃ data,
    from_file isalpha_u02ff elements (JObj collision_top) (py "en_US")
      = Ok data ∧
    dict_get (new_Spelling isalpha_u02ff (py "c-at")) data =
      Some (from_file_entry isalpha_u02ff elements (py "c-at", py "/tak/")).2.
Proof.
  destruct (from_file_spelling_collision isalpha_u02ff elements
              isalpha_u02ff_slash elements_elem
              collision_top (py "en_US") collision_before collision_after
              (py "c-at") (py "/tak/"))
    as (data & R & Hdata & _ & Hget & _).
  - reflexivity.
  - intros kv ->%list_elem_of_singleton. by vm_compute.
  - by exists data.
Defined.

(** C9, as stated, fails for a spelling that normalizes to the empty
    string: the word is grouped by its pronunciation [a], and the index has
    no group under the empty key. *)
Lemma empty_spelling_not_under_empty_key :
  clean_str_to_alphanum isalpha_u02ff (py "-") = [] ∧
  from_file isalpha_u02ff elements hyphen_doc (py "en_US") =
    Ok [(mkSpelling [], [mkPronunciation (py "a")])] ∧
  from_IPADict isalpha_u02ff [(mkSpelling [], [mkPronunciation (py "a")])] =
    Ok [(mkPronunciation (py "a"),
         [mkPronouncedWord (mkSpelling []) (mkPronunciation (py "a"))])] ∧
  dict_get (mkPronunciation [])
    [(mkPronunciation (py "a"),
      [mkPronouncedWord (mkSpelling []) (mkPronunciation (py "a"))])] = None.
Proof. split_and!; by vm_compute. Qed.

Lemma empty_pronunciations_grouped_witness :
  ∃ data pad R G,
    from_file isalpha_u02ff elements (JObj empty_top) (py "en_US") = Ok data ∧
    from_IPADict isalpha_u02ff data = Ok pad ∧
    main isalpha_u02ff elements (JObj empty_top) = Ok R ∧
    PhoneticAnagramDict_getitem isalpha_u02ff pad
      (inr (mkPronunciation (py "a"))) = Ok G ∧
    mkPronouncedWord (mkSpelling []) (mkPronunciation (py "a")) ∈ G.
Proof.
  destruct (empty_pronunciations_grouped isalpha_u02ff elements
              isalpha_u02ff_slash elements_elem empty_top empty_raw)
    as (data & pad & R & Hdata & Hpad & Hall & HR & _).
  - reflexivity.
  - destruct (Hall (mkPronouncedWord (mkSpelling [])
                      (mkPronunciation (py "a"))))
      as (G & HG & _ & Hin & _).
    + assert (from_file isalpha_u02ff elements (JObj empty_top) (py "en_US")
                = Ok (dict_of_items
                        (from_file_entry isalpha_u02ff elements <$> empty_raw)))
        as Hload by (by apply from_file_Ok).
      rewrite Hload in Hdata. injection Hdata as <-.
      apply (bool_decide_unpack _). by vm_compute.
    + by exists data, pad, R, G.
Defined.

(** The scenarios of the design, evaluated. *)

Example scenario_race_acre :
  from_file isalpha_u02ff elements
    (JObj [(py "en_US",
            JArr [JObj [(py "race", JStr (py "/re" ++ [618] ++ py "s/"));
                        (py "acre",
                         JStr (py "/" ++ [712] ++ py "e" ++ [618] ++ py "k"
                                 ++ [601] ++ py "r/, /e" ++ [618] ++ py "k"
                                 ++ [601] ++ py "r/"))]])])
    (py "en_US") =
  Ok [(mkSpelling (py "race"),
       [mkPronunciation (py "re" ++ [618] ++ py "s")]);
      (mkSpelling (py "acre"),
       [mkPronunciation (py "e" ++ [618] ++ py "k" ++ [601] ++ py "r")])].
Proof. by vm_compute. Qed.

Example scenario_cat_act :
  from_IPADict isalpha_u02ff sample_data =
    Ok [(mkPronunciation (py "akt"),
         [mkPronouncedWord (mkSpelling (py "cat")) (mkPronunciation (py "kat"));
          mkPronouncedWord (mkSpelling (py "act")) (mkPronunciation (py "akt"));
          mkPronouncedWord (mkSpelling (py "kat"))
            (mkPronunciation (py "kat"))])].
Proof. by vm_compute. Qed.

Example scenario_bare_object :
  from_file isalpha_u02ff elements (JObj bare_object_top) (py "en_US")
    = Raise AttributeError.
Proof. by vm_compute. Qed.

Example split2_examples :
  split2 44 32 (py "a, , b") = [py "a"; []; py "b"] ∧
  split2 44 32 (py ",, b") = [py ","; py "b"] ∧
  split2 44 32 [] = [[]].
Proof. by vm_compute. Qed.

(** * The further properties on concrete inputs *)

Lemma isalpha_u02ff_comma : isalpha_u02ff 44 = false.
Proof. reflexivity. Qed.

Lemma elements_NoDup (X : gset Pronunciation) : NoDup (elements X).
Proof. apply NoDup_elements. Qed.

Lemma collision_data_loaded :
  from_file isalpha_u02ff elements (JObj collision_top) (py "en_US")
    = Ok collision_data.
Proof. by vm_compute. Qed.

Lemma sample_groups_found :
  find_anagrams isalpha_u02ff [py "cat"; py "act"; py "dog"] None
    = Ok sample_groups.
Proof. by vm_compute. Qed.

Lemma sample_anagram_flattened :
  sample_anagram ∈ flatten_to_pronounced_words sample_data.
Proof. right. left. Qed.

Lemma normalize_pronunciation_clean_witness :
  normalize_pronunciation isalpha_u02ff (py "/k.at/") =
    clean_str_to_alphanum isalpha_u02ff (py "/k.at/").
Proof.
  exact (proj1 (normalize_pronunciation_clean isalpha_u02ff
                  isalpha_u02ff_slash (py "/k.at/"))).
Defined.

Lemma Pronunciation_is_anagram_of_spec_witness :
  Pronunciation_is_anagram_of isalpha_u02ff
    (new_Pronunciation isalpha_u02ff (py "/kat/"))
    (new_Pronunciation isalpha_u02ff (py "/akt/")) = true.
Proof.
  apply (proj1 (Pronunciation_is_anagram_of_spec isalpha_u02ff
                  isalpha_u02ff_slash (py "/kat/") (py "/akt/"))).
  vm_compute. apply perm_swap.
Defined.

Lemma from_file_invariants_witness :
  NoDup collision_data.*1 ∧
  NoDup (flatten_to_pronounced_words collision_data).
Proof.
  destruct (from_file_invariants isalpha_u02ff elements
              elements_elem elements_NoDup
              (JObj collision_top) (py "en_US") collision_data
              collision_data_loaded)
    as (Hkeys & _ & _ & Hflat).
  by split.
Defined.

Lemma find_anagrams_groups_witness :
  NoDup sample_groups.*1 ∧
  ∀ K l, (K, l) ∈ sample_groups →
    l ≠ [] ∧ l `sublist_of` [py "cat"; py "act"; py "dog"] ∧
    ∀ w, w ∈ l →
      ∃ s, key_source None w = Ok s ∧
           new_Pronunciation isalpha_u02ff (sorted_str s) = K.
Proof.
  exact (find_anagrams_groups isalpha_u02ff _ None sample_groups
           sample_groups_found).
Defined.

Lemma find_anagrams_same_group_witness :
  (∃ K l, (K, l) ∈ sample_groups ∧ py "cat" ∈ l ∧ py "act" ∈ l) ↔
  py "cat" ≡ₚ py "act".
Proof.
  apply (find_anagrams_same_group isalpha_u02ff
           [py "cat"; py "act"; py "dog"] None sample_groups).
  - exact sample_groups_found.
  - intros w1 w2 H1 H2.
    repeat (apply elem_of_cons in H1 as [->|H1]);
      try (by apply elem_of_nil in H1);
      repeat (apply elem_of_cons in H2 as [->|H2]);
      try (by apply elem_of_nil in H2);
      vm_compute; congruence.
  - left.
  - right. left.
  - reflexivity.
  - reflexivity.
Defined.

Lemma getitem_anagram_queries_witness :
  PhoneticAnagramDict_getitem isalpha_u02ff
    [(mkPronunciation (py "akt"), [sample_word; sample_anagram])]
    (inl (py "/kat/")) =
  PhoneticAnagramDict_getitem isalpha_u02ff
    [(mkPronunciation (py "akt"), [sample_word; sample_anagram])]
    (inl (py "akt")).
Proof.
  apply (getitem_anagram_queries isalpha_u02ff _ (py "/kat/") (py "akt")).
  vm_compute. apply perm_swap.
Defined.

Lemma getitem_result_witness :
  ∃ pad, from_IPADict isalpha_u02ff sample_data = Ok pad ∧
    PhoneticAnagramDict_getitem isalpha_u02ff pad
      (inr (mkPronunciation (py "xyz"))) =
      match filter (λ w, sorted_str (Pronunciation_s (pronunciation w)) =
                           sorted_str (py "xyz"))
              (flatten_to_pronounced_words sample_data) with
      | [] => Raise KeyError
      | G => Ok G
      end.
Proof.
  apply (getitem_result isalpha_u02ff isalpha_u02ff_slash sample_data
           (mkPronunciation (py "xyz")) sample_data_valid).
  by exists (py "xyz").
Defined.

Lemma main_raises_iff_witness :
  main isalpha_u02ff elements (JObj bare_object_top) = Raise AttributeError.
Proof.
  apply (main_raises_iff isalpha_u02ff elements
           isalpha_u02ff_slash elements_elem).
  by vm_compute.
Defined.

Lemma main_reports_in_order_witness :
  main isalpha_u02ff elements (JObj collision_top) =
    Ok (mkReports
          (report_entry collision_data false <$>
             flatten_to_pronounced_words collision_data)
          (report_entry collision_data true <$>
             flatten_to_pronounced_words collision_data)
          (report_entry collision_data true <$>
             filter (λ w, nontrivial collision_data w)
               (flatten_to_pronounced_words collision_data))).
Proof.
  exact (main_reports_in_order isalpha_u02ff elements
           isalpha_u02ff_slash isalpha_u02ff_colon
           elements_elem elements_NoDup
           (JObj collision_top) collision_data collision_data_loaded).
Defined.

Lemma anagrams_share_report_values_witness :
  ∃ R G,
    main_reports isalpha_u02ff sample_data = Ok R ∧
    sample_word ∈ G ∧ sample_anagram ∈ G ∧
    dict_get (json_safe_str sample_word) (anaphones R) = Some (joined G) ∧
    dict_get (json_safe_str sample_anagram) (anaphones R) = Some (joined G).
Proof.
  destruct (anagrams_share_report_values isalpha_u02ff
              isalpha_u02ff_slash isalpha_u02ff_colon
              sample_data sample_word sample_anagram
              sample_data_valid sample_word_flattened
              sample_anagram_flattened)
    as (R & G & HR & H1 & H2 & HA1 & HA2 & _).
  - by vm_compute.
  - by exists R, G.
Defined.

Lemma json_safe_str_injective_witness :
  new_Spelling isalpha_u02ff (py "c-at") = new_Spelling isalpha_u02ff (py "cat") ∧
  mkPronunciation (py "kat") = mkPronunciation (py "kat").
Proof.
  apply (json_safe_str_injective isalpha_u02ff isalpha_u02ff_colon).
  by vm_compute.
Defined.

Lemma report_values_split_witness :
  ∃ R G va,
    main_reports isalpha_u02ff sample_data = Ok R ∧
    dict_get (json_safe_str sample_word) (anaphones R) = Some va ∧
    split2 44 32 va = json_safe_str <$> G ∧
    sample_word ∈ G.
Proof.
  destruct (report_values_split isalpha_u02ff
              isalpha_u02ff_slash isalpha_u02ff_colon isalpha_u02ff_comma
              sample_data sample_word
              sample_data_valid sample_word_flattened)
    as (R & G & va & vb & HR & HA & _ & Hsplit & _ & Hin & _).
  by exists R, G, va.
Defined.
